(** * CodepointWidthDetector_triegen: classification and trie population

    A shallow embedding of [src/types/CodepointWidthDetector_triegen.py]:
    the packed trie value, the per-character classification performed in the
    body of [main], the ctypes wrappers around the native code point trie,
    and the loop that fills the trie followed by the manual overrides. *)

From Stdlib Require Import Ascii.
From Stdlib.Strings Require Byte.
From stdpp Require Import base numbers list list_numbers strings pretty gmap.

Local Open Scope Z_scope.

(** ** Python exceptions and fallible computations *)

Inductive exn : Type :=
  | RuntimeError (msg : string)
  | AssertionError
  | AttributeError
  | TypeError
  | ValueError
  | ArgumentError.

Inductive result (A : Type) : Type :=
  | Ok (a : A)
  | Raise (e : exn).
Arguments Ok {A} a.
Arguments Raise {A} e.

#[global] Instance result_ret : MRet result := fun A a => Ok a.
#[global] Instance result_bind : MBind result := fun A B f m =>
  match m with
  | Ok a => f a
  | Raise e => Raise e
  end.

Definition raises {A} (m : result A) : Prop := exists e, m = Raise e.
Definition returns {A} (m : result A) : Prop := exists a, m = Ok a.

(** ** Python values read from the XML attributes *)

(** [Element.get] yields a [str] or [None]. *)
Abbreviation pystr := (option string).

(** [x == "lit"] for a value that may be [None]. *)
Definition py_eq (x : pystr) (lit : string) : bool :=
  match x with
  | Some s => String.eqb s lit
  | None => false
  end.

(** [a or b]: [None] and the empty string are falsy. *)
Definition py_or (a b : pystr) : pystr :=
  match a with
  | Some EmptyString => b
  | Some s => Some s
  | None => b
  end.

(** [f"{x}"] for a [str] or [None]. *)
Definition py_format (x : pystr) : string :=
  match x with
  | Some s => s
  | None => "None"
  end.

(** [x.startswith("M")]; on [None] the attribute lookup fails. *)
Definition startswith_M (x : pystr) : result bool :=
  match x with
  | None => Raise AttributeError
  | Some (String a _) => Ok (Ascii.eqb a "M"%char)
  | Some EmptyString => Ok false
  end.

(** ** Enumerations *)

Inductive ClusterBreak : Type :=
  | OTHER
  | CONTROL
  | EXTEND
  | PREPEND
  | ZERO_WIDTH_JOINER
  | REGIONAL_INDICATOR
  | HANGUL_L
  | HANGUL_V
  | HANGUL_T
  | HANGUL_LV
  | HANGUL_LVT
  | CONJUNCT_LINKER
  | EXTENDED_PICTOGRAPHIC.

Inductive CharacterWidth : Type :=
  | ZeroWidth
  | Narrow
  | Wide
  | Ambiguous.

#[global] Instance ClusterBreak_eq_dec : EqDecision ClusterBreak.
Proof. solve_decision. Defined.
#[global] Instance CharacterWidth_eq_dec : EqDecision CharacterWidth.
Proof. solve_decision. Defined.

(** The [.value] of an enumeration member. *)
Class EnumValue (E : Type) := value : E -> Z.

#[global] Instance ClusterBreak_value : EnumValue ClusterBreak := fun cb =>
  match cb with
  | OTHER => 0
  | CONTROL => 1
  | EXTEND => 2
  | PREPEND => 3
  | ZERO_WIDTH_JOINER => 4
  | REGIONAL_INDICATOR => 5
  | HANGUL_L => 6
  | HANGUL_V => 7
  | HANGUL_T => 8
  | HANGUL_LV => 9
  | HANGUL_LVT => 10
  | CONJUNCT_LINKER => 11
  | EXTENDED_PICTOGRAPHIC => 12
  end.

#[global] Instance CharacterWidth_value : EnumValue CharacterWidth := fun w =>
  match w with
  | ZeroWidth => 0
  | Narrow => 1
  | Wide => 2
  | Ambiguous => 3
  end.

Inductive UCPTrieType : Type :=
  | UCPTRIE_TYPE_ANY
  | UCPTRIE_TYPE_FAST
  | UCPTRIE_TYPE_SMALL.

Inductive UCPTrieValueWidth : Type :=
  | UCPTRIE_VALUE_BITS_ANY
  | UCPTRIE_VALUE_BITS_16
  | UCPTRIE_VALUE_BITS_32
  | UCPTRIE_VALUE_BITS_8.

(** The two [_ANY] members are written with a trailing comma in the source,
    so their [.value] is the tuple [(-1,)], which ctypes refuses to pass as a
    [c_int]; the other members carry an integer. *)
Definition UCPTrieType_value (t : UCPTrieType) : option Z :=
  match t with
  | UCPTRIE_TYPE_ANY => None
  | UCPTRIE_TYPE_FAST => Some 0
  | UCPTRIE_TYPE_SMALL => Some 1
  end.

Definition UCPTrieValueWidth_value (w : UCPTrieValueWidth) : option Z :=
  match w with
  | UCPTRIE_VALUE_BITS_ANY => None
  | UCPTRIE_VALUE_BITS_16 => Some 0
  | UCPTRIE_VALUE_BITS_32 => Some 1
  | UCPTRIE_VALUE_BITS_8 => Some 2
  end.

(** ** The packed trie value *)

Definition CLUSTER_BREAK_SHIFT : Z := 0.
Definition CLUSTER_BREAK_MASK : Z := 15.

Definition CHARACTER_WIDTH_SHIFT : Z := 6.
Definition CHARACTER_WIDTH_MASK : Z := 3.

Definition py_assert (b : bool) : result unit :=
  if b then Ok () else Raise AssertionError.

Definition build_trie_value (cb : ClusterBreak) (width : CharacterWidth) : result Z :=
  _ ← py_assert (bool_decide (value cb <= CLUSTER_BREAK_MASK));
  _ ← py_assert (bool_decide (value width <= CHARACTER_WIDTH_MASK));
  Ok (Z.lor (Z.shiftl (value cb) CLUSTER_BREAK_SHIFT)
            (Z.shiftl (value width) CHARACTER_WIDTH_SHIFT)).

(** The extraction macros printed into the generated header. *)
Definition INTO_CLUSTER_BREAK (x : Z) : Z :=
  Z.land (Z.shiftr x CLUSTER_BREAK_SHIFT) CLUSTER_BREAK_MASK.
Definition INTO_CHARACTER_WIDTH (x : Z) : Z :=
  Z.land (Z.shiftr x CHARACTER_WIDTH_SHIFT) CHARACTER_WIDTH_MASK.

(** ** Classification of one character (body of the inner loop of [main]) *)

(** [match char_gcb: ...] *)
Definition cluster_break_of_gcb (char_gcb : pystr) : result ClusterBreak :=
  if py_eq char_gcb "XX" then Ok OTHER
  else if py_eq char_gcb "CR" || py_eq char_gcb "LF" || py_eq char_gcb "CN" then Ok CONTROL
  else if py_eq char_gcb "EX" || py_eq char_gcb "SM" then Ok EXTEND
  else if py_eq char_gcb "PP" then Ok PREPEND
  else if py_eq char_gcb "ZWJ" then Ok ZERO_WIDTH_JOINER
  else if py_eq char_gcb "RI" then Ok REGIONAL_INDICATOR
  else if py_eq char_gcb "L" then Ok HANGUL_L
  else if py_eq char_gcb "V" then Ok HANGUL_V
  else if py_eq char_gcb "T" then Ok HANGUL_T
  else if py_eq char_gcb "LV" then Ok HANGUL_LV
  else if py_eq char_gcb "LVT" then Ok HANGUL_LVT
  else Raise (RuntimeError ("unrecognized GCB: " +:+ py_format char_gcb)).

(** [if char_extpict == "Y": ...] *)
Definition extpict_override (char_extpict : pystr) (cb : ClusterBreak) : result ClusterBreak :=
  if py_eq char_extpict "Y" then
    _ ← py_assert (bool_decide (cb = OTHER));
    Ok EXTENDED_PICTOGRAPHIC
  else Ok cb.

(** [if char_incb == "Linker": ...] *)
Definition incb_override (char_incb : pystr) (cb : ClusterBreak) : result ClusterBreak :=
  if py_eq char_incb "Linker" then
    _ ← py_assert (bool_decide (cb = EXTEND));
    Ok CONJUNCT_LINKER
  else Ok cb.

(** [match char_ea: ...] *)
Definition width_of_ea (char_ea : pystr) : result CharacterWidth :=
  if py_eq char_ea "N" || py_eq char_ea "Na" || py_eq char_ea "H" then Ok Narrow
  else if py_eq char_ea "F" || py_eq char_ea "W" then Ok Wide
  else if py_eq char_ea "A" then Ok Ambiguous
  else Raise (RuntimeError ("unrecognized ea: " +:+ py_format char_ea)).

(** [if char_gc.startswith("M"): ... elif ...: ... else: ...] *)
Definition derive_width (char_gc char_emoji char_epres char_ea : pystr)
  : result CharacterWidth :=
  mark ← startswith_M char_gc;
  if mark : bool then Ok ZeroWidth
  else if py_eq char_emoji "Y" && py_eq char_epres "Y" then Ok Wide
  else width_of_ea char_ea.

(** The property attributes of a [group] or [char] element. *)
Record properties : Type := Properties {
  gc : pystr;
  GCB : pystr;
  InCB : pystr;
  Emoji : pystr;
  EPres : pystr;
  ExtPict : pystr;
  ea : pystr;
}.

(** [char.get(k) or group_k] for the seven attributes. *)
Definition inherit (char group : properties) : properties :=
  {| gc := py_or (gc char) (gc group);
     GCB := py_or (GCB char) (GCB group);
     InCB := py_or (InCB char) (InCB group);
     Emoji := py_or (Emoji char) (Emoji group);
     EPres := py_or (EPres char) (EPres group);
     ExtPict := py_or (ExtPict char) (ExtPict group);
     ea := py_or (ea char) (ea group) |}.

(** From the [match char_gcb] down to [value = build_trie_value(cb, width)]. *)
Definition classify (p : properties) : result Z :=
  cb ← cluster_break_of_gcb (GCB p);
  cb ← extpict_override (ExtPict p) cb;
  cb ← incb_override (InCB p) cb;
  width ← derive_width (gc p) (Emoji p) (EPres p) (ea p);
  build_trie_value cb width.


(** ** The native code point trie *)

Module icu.

(** The native trie library reached through [cdll.icu] is not part of the
    sources; only its C prototypes are quoted there.  Its functions are
    modelled below from the specification: the data model (default value,
    error value, 8-bit values), the accumulator contract (later writes
    replace earlier ones in their range) and the lookup contract (stored
    value, default where nothing was stored, error value outside the
    codepoint space).  The block layout of the built trie is not
    represented: a trie is the mapping it stands for. *)

(** Modelled from the spec: the [UErrorCode] results the model produces
    (native/library failure is reported by an error code and name). *)
Inductive UErrorCode : Type :=
  | U_ZERO_ERROR
  | U_ILLEGAL_ARGUMENT_ERROR.

(** Modelled from the spec: the integer of an error code; failures are
    positive. *)
Definition code_value (code : UErrorCode) : Z :=
  match code with
  | U_ZERO_ERROR => 0
  | U_ILLEGAL_ARGUMENT_ERROR => 1
  end.

(** Modelled from the spec: the native [u_errorName]. *)
Definition u_errorName (code : UErrorCode) : string :=
  match code with
  | U_ZERO_ERROR => "U_ZERO_ERROR"
  | U_ILLEGAL_ARGUMENT_ERROR => "U_ILLEGAL_ARGUMENT_ERROR"
  end.

(** Modelled from the spec: the last codepoint of the codepoint space. *)
Definition MAX_UNICODE : Z := 0x10ffff.

(** Modelled from the spec: the mutable trie (the sparse range accumulator):
    default value, error value and the cells assigned so far. *)
Record UMutableCPTrie : Type := MutableTrie {
  initialValue : Z;
  errorValue : Z;
  data : gmap Z Z;
}.

(** Modelled from the spec: the built trie: layout discriminator, value
    width, default value, error value and the stored values. *)
Record UCPTrie : Type := Trie {
  type : Z;
  valueWidth : Z;
  nullValue : Z;
  trieErrorValue : Z;
  values : gmap Z Z;
}.

(** Modelled from the spec: the native [umutablecptrie_open]; nothing is
    assigned yet. *)
Definition umutablecptrie_open (initialValue errorValue : Z)
  : UMutableCPTrie * UErrorCode :=
  (MutableTrie initialValue errorValue ∅, U_ZERO_ERROR).

(** Modelled from the spec: the native [umutablecptrie_set]; a single
    codepoint submission, refused outside the codepoint space. *)
Definition umutablecptrie_set (trie : UMutableCPTrie) (c value : Z)
  : UMutableCPTrie * UErrorCode :=
  if bool_decide (MAX_UNICODE < c) then (trie, U_ILLEGAL_ARGUMENT_ERROR)
  else (MutableTrie (initialValue trie) (errorValue trie) (<[c := value]> (data trie)),
        U_ZERO_ERROR).

(** Modelled from the spec: every cell of [start .. end] receives [value]. *)
Definition fill (start end_ value : Z) (m : gmap Z Z) : gmap Z Z :=
  foldr (fun k m => <[k := value]> m) m (seqZ start (end_ - start + 1)).
#[global] Arguments fill : simpl never.

(** Modelled from the spec: the native [umutablecptrie_setRange]; an
    inclusive range submission that overrides earlier ones on overlap,
    refused when it is not a range of codepoints. *)
Definition umutablecptrie_setRange (trie : UMutableCPTrie) (start end_ value : Z)
  : UMutableCPTrie * UErrorCode :=
  if bool_decide (MAX_UNICODE < start) || bool_decide (MAX_UNICODE < end_)
     || bool_decide (end_ < start)
  then (trie, U_ILLEGAL_ARGUMENT_ERROR)
  else (MutableTrie (initialValue trie) (errorValue trie)
          (fill start end_ value (data trie)),
        U_ZERO_ERROR).

(** Modelled from the spec: lookup in the mutable trie. *)
Definition umutablecptrie_get (trie : UMutableCPTrie) (c : Z) : Z :=
  if bool_decide (0 <= c <= MAX_UNICODE)
  then default (initialValue trie) (data trie !! c)
  else errorValue trie.

(** Modelled from the spec: the bits a stored value keeps for the value
    widths [UCPTRIE_VALUE_BITS_16], [_32] and [_8]. *)
Definition width_mask (valueWidth : Z) : option Z :=
  if bool_decide (valueWidth = 0) then Some 0xffff
  else if bool_decide (valueWidth = 1) then Some 0xffffffff
  else if bool_decide (valueWidth = 2) then Some 0xff
  else None.

(** Modelled from the spec: the native [umutablecptrie_buildImmutable]; the
    built trie holds the same mapping, each value in the chosen width. *)
Definition umutablecptrie_buildImmutable (trie : UMutableCPTrie) (type valueWidth : Z)
  : option UCPTrie * UErrorCode :=
  match width_mask valueWidth with
  | Some mask =>
      if bool_decide (type = 0) || bool_decide (type = 1) then
        (Some (Trie type valueWidth
                 (Z.land (initialValue trie) mask)
                 (Z.land (errorValue trie) mask)
                 ((fun v => Z.land v mask) <$> data trie)),
         U_ZERO_ERROR)
      else (None, U_ILLEGAL_ARGUMENT_ERROR)
  | None => (None, U_ILLEGAL_ARGUMENT_ERROR)
  end.

(** Modelled from the spec: lookup in the built trie; the error value
    answers queries outside [0, 0x10FFFF]. *)
Definition ucptrie_get (trie : UCPTrie) (c : Z) : Z :=
  if bool_decide (0 <= c <= MAX_UNICODE)
  then default (nullValue trie) (values trie !! c)
  else trieErrorValue trie.

End icu.

(** ** The ctypes wrappers *)

(** An [int] passed for a [c_uint32] parameter keeps its low 32 bits. *)
Definition c_uint32 (x : Z) : Z := x mod 2 ^ 32.

Definition check_error (error : icu.UErrorCode) : result unit :=
  if bool_decide (icu.code_value error > 0) then
    Raise (RuntimeError ("failed with " +:+ icu.u_errorName error
                         +:+ " (" +:+ pretty (icu.code_value error) +:+ ")"))
  else Ok ().

Definition umutablecptrie_open (initial_value error_value : Z) : result icu.UMutableCPTrie :=
  let '(trie, error) :=
    icu.umutablecptrie_open (c_uint32 initial_value) (c_uint32 error_value) in
  _ ← check_error error;
  Ok trie.

Definition umutablecptrie_set (mutable_trie : icu.UMutableCPTrie) (c value : Z)
  : result icu.UMutableCPTrie :=
  let '(trie, error) :=
    icu.umutablecptrie_set mutable_trie (c_uint32 c) (c_uint32 value) in
  _ ← check_error error;
  Ok trie.

Definition umutablecptrie_setRange (mutable_trie : icu.UMutableCPTrie) (start end_ value : Z)
  : result icu.UMutableCPTrie :=
  let '(trie, error) :=
    icu.umutablecptrie_setRange mutable_trie (c_uint32 start) (c_uint32 end_)
      (c_uint32 value) in
  _ ← check_error error;
  Ok trie.

Definition umutablecptrie_buildImmutable (mutable_trie : icu.UMutableCPTrie)
    (typ : UCPTrieType) (width : UCPTrieValueWidth) : result icu.UCPTrie :=
  match UCPTrieType_value typ, UCPTrieValueWidth_value width with
  | Some t, Some w =>
      let '(trie, error) := icu.umutablecptrie_buildImmutable mutable_trie t w in
      _ ← check_error error;
      match trie with
      | Some trie => Ok trie
      | None => Raise TypeError (* a null handle only comes with an error *)
      end
  | _, _ => Raise ArgumentError
  end.

(** ** The population of the trie in [main] *)

(** A codepoint attribute ([cp], [first-cp], [last-cp]) as [int(·, 16)] sees
    it: not present, present but not a hexadecimal numeral, or a numeral. *)
Inductive hex_attr : Type :=
  | absent
  | malformed
  | numeral (n : Z).

Definition int_16 (a : hex_attr) : result Z :=
  match a with
  | absent => Raise TypeError
  | malformed => Raise ValueError
  | numeral n => Ok n
  end.

Record char_element : Type := Char {
  char_props : properties;
  cp : hex_attr;
  first_cp : hex_attr;
  last_cp : hex_attr;
}.

Record group_element : Type := Group {
  group_props : properties;
  chars : list char_element;
}.

(** A [for] loop whose body may raise. *)
Fixpoint for_each {S A : Type} (body : S -> A -> result S) (s : S) (l : list A)
  : result S :=
  match l with
  | [] => Ok s
  | a :: l => s' ← body s a; for_each body s' l
  end.

(** From [if value == initial_value: continue] to the end of the loop body. *)
Definition store (initial_value : Z) (mutable_trie : icu.UMutableCPTrie)
    (value : Z) (char : char_element) : result icu.UMutableCPTrie :=
  if bool_decide (value = initial_value) then Ok mutable_trie
  else
    match cp char with
    | absent =>
        cp_first ← int_16 (first_cp char);
        cp_last ← int_16 (last_cp char);
        umutablecptrie_setRange mutable_trie cp_first cp_last value
    | cp => cp ← int_16 cp; umutablecptrie_set mutable_trie cp value
    end.

(** The body of [for char in group]. *)
Definition process_char (initial_value : Z) (group : properties)
    (mutable_trie : icu.UMutableCPTrie) (char : char_element)
  : result icu.UMutableCPTrie :=
  value ← classify (inherit (char_props char) group);
  store initial_value mutable_trie value char.

(** The body of [for group in root.findall(...)]. *)
Definition process_group (initial_value : Z) (mutable_trie : icu.UMutableCPTrie)
    (group : group_element) : result icu.UMutableCPTrie :=
  for_each (process_char initial_value (group_props group)) mutable_trie (chars group).

(** The three [umutablecptrie_setRange] calls after the loop. *)
Definition manual_overrides (mutable_trie : icu.UMutableCPTrie)
  : result icu.UMutableCPTrie :=
  mutable_trie ← umutablecptrie_setRange mutable_trie 0x2500 0x259F 1;
  mutable_trie ← umutablecptrie_setRange mutable_trie 0x4DC0 0x4DFF 1;
  umutablecptrie_setRange mutable_trie 0xFE20 0xFE2F 1.

Definition initial_value : result Z := build_trie_value OTHER Narrow.
Definition error_value : result Z := build_trie_value OTHER Ambiguous.

(** [main] from the parsed repertoire to the built trie. *)
Definition main (root : list group_element) : result icu.UCPTrie :=
  initial_value ← initial_value;
  error_value ← error_value;
  mutable_trie ← umutablecptrie_open initial_value error_value;
  mutable_trie ← for_each (process_group initial_value) mutable_trie root;
  mutable_trie ← manual_overrides mutable_trie;
  umutablecptrie_buildImmutable mutable_trie UCPTRIE_TYPE_FAST UCPTRIE_VALUE_BITS_8.

(** ** Reference definitions used to state the properties *)

(** The grapheme-cluster-break table as the specification lists it. *)
Definition gcb_table : gmap string ClusterBreak :=
  list_to_map
    [("XX", OTHER); ("CR", CONTROL); ("LF", CONTROL); ("CN", CONTROL);
     ("EX", EXTEND); ("SM", EXTEND); ("PP", PREPEND); ("ZWJ", ZERO_WIDTH_JOINER);
     ("RI", REGIONAL_INDICATOR); ("L", HANGUL_L); ("V", HANGUL_V); ("T", HANGUL_T);
     ("LV", HANGUL_LV); ("LVT", HANGUL_LVT)]%string.

Definition gcb_codes : list string :=
  ["XX"; "CR"; "LF"; "CN"; "EX"; "SM"; "PP"; "ZWJ"; "RI"; "L"; "V"; "T"; "LV"; "LVT"]%string.

Definition ea_codes : list string := ["N"; "Na"; "H"; "F"; "W"; "A"]%string.

(** The general category is a mark category: it starts with "M". *)
Definition starts_with_M (s : string) : Prop := exists rest, s = String "M" rest.

#[global] Instance starts_with_M_dec (s : string) : Decision (starts_with_M s).
Proof.
  destruct s as [|a s].
  - right. intros (rest & [=]).
  - destruct (decide (a = "M"%char)) as [->|Hne].
    + left. by exists s.
    + right. intros (rest & [= -> _]). done.
Defined.

(** The cluster-break half and the width half of [classify]. *)
Definition derive_cluster_break (p : properties) : result ClusterBreak :=
  cb ← cluster_break_of_gcb (GCB p);
  cb ← extpict_override (ExtPict p) cb;
  incb_override (InCB p) cb.

Definition width_of (p : properties) : result CharacterWidth :=
  derive_width (gc p) (Emoji p) (EPres p) (ea p).

(** The emoji test of the second width rule. *)
Definition emoji_presentation (p : properties) : Prop :=
  Emoji p = Some "Y"%string /\ EPres p = Some "Y"%string.

(** A value that packs some cluster break with some width. *)
Definition is_packed (v : Z) : Prop :=
  exists cb width, build_trie_value cb width = Ok v.

(** One call the generator makes on the mutable trie. *)
Inductive submission : Type :=
  | SetOne (c value : Z)
  | SetRange (start end_ value : Z).

Definition submit (mutable_trie : icu.UMutableCPTrie) (s : submission)
  : result icu.UMutableCPTrie :=
  match s with
  | SetOne c v => umutablecptrie_set mutable_trie c v
  | SetRange a b v => umutablecptrie_setRange mutable_trie a b v
  end.

Definition sub_start (s : submission) : Z :=
  match s with SetOne c _ => c | SetRange a _ _ => a end.
Definition sub_end (s : submission) : Z :=
  match s with SetOne c _ => c | SetRange _ b _ => b end.
Definition sub_value (s : submission) : Z :=
  match s with SetOne _ v => v | SetRange _ _ v => v end.

Definition contains (c : Z) (s : submission) : Prop :=
  sub_start s <= c <= sub_end s.

#[global] Instance contains_dec c s : Decision (contains c s).
Proof. unfold contains. apply _. Defined.

(** The value of the last submission, in submission order, whose range
    contains [c]. *)
Definition last_write (R : list submission) (c : Z) : option Z :=
  sub_value <$> last (filter (contains c) R).

(** A submission of an inclusive codepoint range and an 8-bit packed value. *)
Definition well_formed (s : submission) : Prop :=
  0 <= sub_start s <= sub_end s /\ sub_end s <= icu.MAX_UNICODE
  /\ 0 <= sub_value s < 256.

(** The arguments of a submission as the native call receives them. *)
Definition as_uint32 (s : submission) : submission :=
  match s with
  | SetOne c v => SetOne (c_uint32 c) (c_uint32 v)
  | SetRange a b v => SetRange (c_uint32 a) (c_uint32 b) (c_uint32 v)
  end.

(** The codepoints a [char] element designates. *)
Definition char_covers (char : char_element) (c : Z) : Prop :=
  match cp char, first_cp char, last_cp char with
  | numeral n, _, _ => c = c_uint32 n
  | absent, numeral a, numeral b => c_uint32 a <= c <= c_uint32 b
  | _, _, _ => False
  end.

(** The record [char] of a group with attributes [group] reaches a call on
    the trie (its value is not the default) and designates [c]. *)
Definition char_submits (initial_value : Z) (group : properties) (char : char_element)
    (c : Z) : Prop :=
  exists value,
    classify (inherit (char_props char) group) = Ok value
    /\ value <> initial_value /\ char_covers char c.

(** Some record of the repertoire submits a value for [c]. *)
Definition submitted (root : list group_element) (c : Z) : Prop :=
  exists group char,
    group ∈ root /\ char ∈ chars group /\ char_submits 64 (group_props group) char c.

(** From [t] to [t'] only cells satisfying [Q] were written, with packed
    values. *)
Definition written_within (Q : Z -> Prop) (t t' : icu.UMutableCPTrie) : Prop :=
  icu.initialValue t' = icu.initialValue t
  /\ icu.errorValue t' = icu.errorValue t
  /\ forall c, icu.data t' !! c = icu.data t !! c
       \/ exists v, icu.data t' !! c = Some v /\ is_packed v /\ Q c.

(** The three ranges of the manual overrides. *)
Definition overridden (c : Z) : Prop :=
  0x2500 <= c <= 0x259F \/ 0x4DC0 <= c <= 0x4DFF \/ 0xFE20 <= c <= 0xFE2F.

(** The loop tail without the [continue]: every value is written. *)
Definition store_unskipped (mutable_trie : icu.UMutableCPTrie)
    (value : Z) (char : char_element) : result icu.UMutableCPTrie :=
  match cp char with
  | absent =>
      cp_first ← int_16 (first_cp char);
      cp_last ← int_16 (last_cp char);
      umutablecptrie_setRange mutable_trie cp_first cp_last value
  | cp => cp ← int_16 cp; umutablecptrie_set mutable_trie cp value
  end.

Definition store_all (initial_value : Z) (mutable_trie : icu.UMutableCPTrie)
    (l : list (Z * char_element)) : result icu.UMutableCPTrie :=
  for_each (fun t vc => store initial_value t vc.1 vc.2) mutable_trie l.

Definition store_all_unskipped (mutable_trie : icu.UMutableCPTrie)
    (l : list (Z * char_element)) : result icu.UMutableCPTrie :=
  for_each (fun t vc => store_unskipped t vc.1 vc.2) mutable_trie l.

(** No default-valued entry designates a codepoint that an earlier entry
    with another value designates. *)
Definition default_writes_fresh (initial_value : Z) (l : list (Z * char_element)) : Prop :=
  forall l1 char l2 value' char' c,
    l = l1 ++ (initial_value, char) :: l2 ->
    (value', char') ∈ l1 -> value' <> initial_value ->
    char_covers char' c -> ~ char_covers char c.

#[global] Instance char_covers_dec char c : Decision (char_covers char c).
Proof.
  unfold char_covers.
  destruct (cp char); [destruct (first_cp char); [| |destruct (last_cp char)]| |];
    apply _.
Defined.

#[global] Instance overridden_dec c : Decision (overridden c).
Proof. unfold overridden. apply _. Defined.

(** The content of a cell of the mutable trie. *)
Definition cell (t : icu.UMutableCPTrie) (c : Z) : Z :=
  default (icu.initialValue t) (icu.data t !! c).

(** What the table built from [mutable_trie] answers for [c]. *)
Definition lookup_built (mutable_trie : icu.UMutableCPTrie) (c : Z) : result Z :=
  trie ← umutablecptrie_buildImmutable mutable_trie UCPTRIE_TYPE_FAST UCPTRIE_VALUE_BITS_8;
  Ok (icu.ucptrie_get trie c).

(** No two entries designate a common codepoint. *)
Definition pairwise_disjoint (l : list (Z * char_element)) : Prop :=
  forall l1 x l2 y c,
    l = l1 ++ x :: l2 -> y ∈ l1 -> char_covers y.2 c -> ~ char_covers x.2 c.

(** Sample records. *)
Definition no_props : properties := Properties None None None None None None None.

Definition latin_capital_a : properties :=
  Properties (Some "Lu") (Some "XX") (Some "None") (Some "N") (Some "N") (Some "N")
    (Some "Na").
Definition combining_acute : properties :=
  Properties (Some "Mn") (Some "EX") (Some "Extend") (Some "N") (Some "N") (Some "N")
    (Some "A").
Definition grinning_face : properties :=
  Properties (Some "So") (Some "XX") (Some "None") (Some "Y") (Some "Y") (Some "Y")
    (Some "W").
Definition hangul_ga : properties :=
  Properties (Some "Lo") (Some "LV") (Some "None") (Some "N") (Some "N") (Some "N")
    (Some "W").
Definition virama : properties :=
  Properties (Some "Mn") (Some "EX") (Some "Linker") (Some "N") (Some "N") (Some "N")
    (Some "N").
Definition wide_props : properties :=
  Properties (Some "Lo") (Some "XX") None None None None (Some "W").
Definition narrow_props : properties :=
  Properties (Some "Lo") (Some "XX") None None None None (Some "N").

Definition pictographic_linker : properties :=
  Properties (Some "So") (Some "XX") (Some "Linker") (Some "N") (Some "N") (Some "Y")
    (Some "N").

Definition single (p : properties) (c : Z) : char_element :=
  Char p (numeral c) absent absent.

(** A repertoire in which U+0041 is listed twice, first wide then narrow. *)
Definition twice_0041 : list (Z * char_element) :=
  [(128, single wide_props 0x41); (64, single narrow_props 0x41)].

(** The same codepoints listed once each. *)
Definition once_each : list (Z * char_element) :=
  [(128, single wide_props 0x41); (64, single narrow_props 0x42)].

Definition fresh_trie : icu.UMutableCPTrie := icu.MutableTrie 64 192 ∅.

Definition box_drawing : properties :=
  Properties (Some "So") (Some "XX") (Some "None") (Some "N") (Some "N") (Some "N")
    (Some "A").

(** A small repertoire: one group giving defaults, with single records and
    a range. *)
Definition sample_root : list group_element :=
  [Group (Properties (Some "Lo") (Some "XX") None (Some "N") (Some "N") (Some "N")
            (Some "N"))
     [single latin_capital_a 0x41;
      single combining_acute 0x301;
      single box_drawing 0x2500;
      Char hangul_ga absent (numeral 0xAC00) (numeral 0xAC03);
      Char no_props absent (numeral 0x3400) (numeral 0x3402)]].

Definition sample_submissions : list submission :=
  [SetRange 0x41 0x5A 128; SetOne 0x41 2; SetRange 0x50 0x60 64].

(** ** The generator's output helpers *)

(** [range(0, stop, step)]: a zero step is refused, the other steps count
    from 0 towards [stop]. *)
Definition range_from_0 (stop step : Z) : result (list Z) :=
  if bool_decide (step = 0) then Raise ValueError
  else
    let count :=
      if bool_decide (0 < step) then
        if bool_decide (0 < stop) then (stop - 1) / step + 1 else 0
      else
        if bool_decide (stop < 0) then (- stop - 1) / (- step) + 1 else 0 in
    Ok ((fun k => k * step) <$> seqZ 0 count).

(** An index of a slice brought into [0 .. len]: negative indices count
    from the end. *)
Definition clamp_index (len k : Z) : Z :=
  if bool_decide (k < 0) then Z.max (k + len) 0 else Z.min k len.

(** [lst[i:j]] *)
Definition py_slice {A : Type} (lst : list A) (i j : Z) : list A :=
  let len := Z.of_nat (length lst) in
  let lo := clamp_index len i in
  let hi := clamp_index len j in
  take (Z.to_nat (hi - lo)) (drop (Z.to_nat lo) lst).

(** [chunked]: the values the generator yields, or the exception its
    [range] raises. *)
Definition chunked {A : Type} (lst : list A) (n : Z) : result (list (list A)) :=
  mbind (M := result)
    (fun starts : list Z => Ok ((fun i => py_slice lst i (i + n)) <$> starts))
    (range_from_0 (Z.of_nat (length lst)) n).

(** A lowercase hexadecimal digit. *)
Definition hex_digit (d : N) : ascii :=
  default "0"%char
    (["0"; "1"; "2"; "3"; "4"; "5"; "6"; "7"; "8"; "9";
      "a"; "b"; "c"; "d"; "e"; "f"]%char !! N.to_nat d).

(** ['\\x{:02x}'.format(c)] for an element [c] of the [c_ubyte] array. *)
Definition escape (c : Byte.byte) : list ascii :=
  ["\"%char; "x"%char; hex_digit (Byte.to_N c / 16); hex_digit (Byte.to_N c mod 16)].

(** [string = ''.join(... for c in data)] *)
Definition c_string (data : list Byte.byte) : list ascii := mjoin (escape <$> data).

(** The value of a hexadecimal digit, to read an escape back. *)
Definition hex_value (a : ascii) : option N :=
  (fun i => N.of_nat i.1) <$>
    list_find (fun b => b = a)
      ["0"; "1"; "2"; "3"; "4"; "5"; "6"; "7"; "8"; "9";
       "a"; "b"; "c"; "d"; "e"; "f"]%char.

Definition unescape (e : list ascii) : option N :=
  match e with
  | [b; x; hi; lo] =>
      if bool_decide (b = "\"%char /\ x = "x"%char) then
        h ← hex_value hi; l ← hex_value lo; Some (16 * h + l)%N
      else None
  | _ => None
  end.

(** ** The native calls a repertoire leads to *)

(** The call one record leads to, if any: the loop body without the trie. *)
Definition record_call (initial_value : Z) (group : properties) (char : char_element)
  : result (option submission) :=
  value ← classify (inherit (char_props char) group);
  if bool_decide (value = initial_value) then Ok None
  else
    match cp char with
    | absent =>
        cp_first ← int_16 (first_cp char);
        cp_last ← int_16 (last_cp char);
        Ok (Some (SetRange cp_first cp_last value))
    | cp => cp ← int_16 cp; Ok (Some (SetOne cp value))
    end.

Fixpoint chars_calls (initial_value : Z) (group : properties) (l : list char_element)
  : result (list submission) :=
  match l with
  | [] => Ok []
  | char :: l =>
      call ← record_call initial_value group char;
      calls ← chars_calls initial_value group l;
      Ok (option_list call ++ calls)
  end.

Fixpoint calls_of (initial_value : Z) (root : list group_element)
  : result (list submission) :=
  match root with
  | [] => Ok []
  | group :: root =>
      calls ← chars_calls initial_value (group_props group) (chars group);
      rest ← calls_of initial_value root;
      Ok (calls ++ rest)
  end.

(** The calls of the manual overrides. *)
Definition override_calls : list submission :=
  [SetRange 0x2500 0x259F 1; SetRange 0x4DC0 0x4DFF 1; SetRange 0xFE20 0xFE2F 1].

(** Some record of the repertoire designates [c]. *)
Definition listed (root : list group_element) (c : Z) : Prop :=
  exists group char, group ∈ root /\ char ∈ chars group /\ char_covers char c.

(** Every record of the repertoire that designates [c] classifies to [v]. *)
Definition classified_as (root : list group_element) (c v : Z) : Prop :=
  forall group char,
    group ∈ root -> char ∈ chars group -> char_covers char c ->
    classify (inherit (char_props char) (group_props group)) = Ok v.

(** * Properties *)

Example classify_latin_capital_a : classify latin_capital_a = Ok 64.
Proof. reflexivity. Qed.
Example classify_combining_acute : classify combining_acute = Ok 2.
Proof. reflexivity. Qed.
Example classify_grinning_face : classify grinning_face = Ok 140.
Proof. reflexivity. Qed.
Example classify_hangul_ga : classify hangul_ga = Ok 137.
Proof. reflexivity. Qed.
Example classify_virama : classify virama = Ok 11.
Proof. reflexivity. Qed.
Example classify_wide_props : classify wide_props = Ok 128.
Proof. reflexivity. Qed.
Example classify_narrow_props : classify narrow_props = Ok 64.
Proof. reflexivity. Qed.

(** The generator on a repertoire listing U+0041 twice keeps the first,
    wide, value: the second record packs the default and is skipped. *)
Example main_twice_0041 :
  (t ← main [Group no_props [single wide_props 0x41; single narrow_props 0x41]];
   Ok (icu.ucptrie_get t 0x41)) = Ok 128.
Proof. vm_compute. reflexivity. Qed.

(** ** The error monad *)

Lemma bind_Ok {A B} (m : result A) (f : A -> result B) (b : B) :
  m ≫= f = Ok b <-> exists a, m = Ok a /\ f a = Ok b.
Proof.
  destruct m as [a|e]; simpl; split.
  - intros H. exists a. done.
  - intros (a' & [= ->] & H). done.
  - intros [=].
  - intros (a' & [=] & _).
Qed.

Lemma raises_not_returns {A} (m : result A) : raises m <-> ~ returns m.
Proof.
  unfold raises, returns. destruct m as [a|e]; split.
  - intros [e [=]].
  - intros H. destruct H. by exists a.
  - intros _ [a [=]].
  - intros _. by exists e.
Qed.

(** ** Strings read from the attributes *)

Lemma py_eq_true x lit : py_eq x lit = true <-> x = Some lit.
Proof.
  destruct x as [s|]; simpl; [|split; [intros [=]|intros [=]]].
  rewrite String.eqb_eq. split; [by intros ->|by intros [= ->]].
Qed.

Lemma py_eq_false x lit : py_eq x lit = false <-> x <> Some lit.
Proof.
  rewrite <- py_eq_true. destruct (py_eq x lit); split; congruence.
Qed.

Lemma startswith_M_true (s : string) :
  starts_with_M s -> startswith_M (Some s) = Ok true.
Proof. intros (rest & ->). reflexivity. Qed.

Lemma startswith_M_false (s : string) :
  ~ starts_with_M s -> startswith_M (Some s) = Ok false.
Proof.
  intros Hno. destruct s as [|a s]; simpl; [done|].
  destruct (Ascii.eqb_spec a "M") as [->|Hne]; [|done].
  destruct Hno. by exists s.
Qed.

(** ** The packed value *)

Lemma build_trie_value_byte (cb : ClusterBreak) (width : CharacterWidth) :
  exists v, build_trie_value cb width = Ok v /\ 0 <= v < 256.
Proof.
  unfold build_trie_value.
  rewrite !bool_decide_eq_true_2 by (destruct cb, width; vm_compute; discriminate).
  eexists. split; [reflexivity|].
  unfold CLUSTER_BREAK_SHIFT, CHARACTER_WIDTH_SHIFT.
  destruct cb, width; vm_compute; split; congruence.
Qed.

(** C3: for every cluster break and every width, [build_trie_value] returns
    (no assertion fires) a value below 256 whose bits 4 and 5 are clear, and
    the two extraction macros give back the numeric values of the cluster
    break (0 to 12) and of the width (0 to 3). *)
Theorem build_trie_value_fields (cb : ClusterBreak) (width : CharacterWidth) :
  0 <= value cb <= 12 /\ 0 <= value width <= 3 /\
  exists v,
    build_trie_value cb width = Ok v
    /\ 0 <= v < 256
    /\ Z.testbit v 4 = false /\ Z.testbit v 5 = false
    /\ Z.land (Z.shiftr v 0) 15 = value cb
    /\ Z.land (Z.shiftr v 6) 3 = value width
    /\ INTO_CLUSTER_BREAK v = value cb
    /\ INTO_CHARACTER_WIDTH v = value width.
Proof.
  destruct cb, width; (split; [|split]); try (vm_compute; intuition congruence);
    eexists; (split; [reflexivity|]); vm_compute; intuition congruence.
Qed.

(** ** Classification *)

Ltac in_list := repeat first [apply list_elem_of_here | apply list_elem_of_further].

Lemma cluster_break_of_gcb_None :
  cluster_break_of_gcb None = Raise (RuntimeError "unrecognized GCB: None").
Proof. reflexivity. Qed.

Lemma gcb_table_None (s : string) : s ∉ gcb_codes -> gcb_table !! s = None.
Proof. intros Hout. apply not_elem_of_list_to_map_1. exact Hout. Qed.

Lemma cluster_break_of_gcb_table (s : string) :
  cluster_break_of_gcb (Some s) =
    match gcb_table !! s with
    | Some cb => Ok cb
    | None => Raise (RuntimeError ("unrecognized GCB: " +:+ s))
    end.
Proof.
  destruct (decide (s ∈ gcb_codes)) as [Hin|Hout].
  - unfold gcb_codes in Hin.
    repeat (apply elem_of_cons in Hin as [->|Hin]; [vm_compute; reflexivity|]).
    by apply elem_of_nil in Hin.
  - assert (forall lit, lit ∈ gcb_codes -> String.eqb s lit = false) as E.
    { intros lit Hl. apply String.eqb_neq. by intros ->. }
    rewrite (gcb_table_None s Hout).
    unfold cluster_break_of_gcb, py_eq.
    rewrite !E by (unfold gcb_codes; in_list). reflexivity.
Qed.

Lemma gcb_table_codes (s : string) : is_Some (gcb_table !! s) <-> s ∈ gcb_codes.
Proof.
  split.
  - intros Hs. destruct (decide (s ∈ gcb_codes)) as [|Hout]; [done|].
    rewrite (gcb_table_None s Hout) in Hs. by destruct Hs.
  - unfold gcb_codes. intros Hin.
    repeat (apply elem_of_cons in Hin as [->|Hin]; [vm_compute; eauto|]).
    by apply elem_of_nil in Hin.
Qed.

(** C5: the grapheme-cluster-break code is mapped to a cluster break exactly
    by the fixed table, and this step of the classification raises (the
    "unrecognized GCB" error) if and only if the code is none of the codes of
    the table; the whole classification then fails with that error. *)
Theorem gcb_mapping_table (p : properties) :
  cluster_break_of_gcb (GCB p) =
    match GCB p ≫= (gcb_table !!.) with
    | Some cb => Ok cb
    | None => Raise (RuntimeError ("unrecognized GCB: " +:+ py_format (GCB p)))
    end
  /\ (raises (cluster_break_of_gcb (GCB p)) <->
      forall code, code ∈ gcb_codes -> GCB p <> Some code)
  /\ (classify p = Raise (RuntimeError ("unrecognized GCB: " +:+ py_format (GCB p))) <->
      forall code, code ∈ gcb_codes -> GCB p <> Some code).
Proof.
  assert (raises (cluster_break_of_gcb (GCB p)) <->
          forall code, code ∈ gcb_codes -> GCB p <> Some code) as Hraises.
  { destruct (GCB p) as [s|].
    - rewrite cluster_break_of_gcb_table. split.
      + intros [e He] code Hcode [= ->].
        apply gcb_table_codes in Hcode as [cb Hcb]. by rewrite Hcb in He.
      + intros Hno. destruct (gcb_table !! s) as [cb|] eqn:Hcb; [|by eexists].
        destruct (Hno s); [|done]. apply gcb_table_codes. by exists cb.
    - split; [done|]. intros _. by eexists. }
  split; [|split; [exact Hraises|]].
  - destruct (GCB p) as [s|]; [apply cluster_break_of_gcb_table|reflexivity].
  - rewrite <- Hraises. split.
    + unfold classify, raises.
      destruct (cluster_break_of_gcb (GCB p)) as [cb|e]; [|by eexists].
      simpl. intros Hc. exfalso. revert Hc.
      unfold extpict_override, incb_override, derive_width, width_of_ea,
        build_trie_value, py_assert, startswith_M.
      repeat (case_match; simpl; try discriminate).
    + intros [e He]. unfold classify. rewrite He. simpl. f_equal.
      destruct (GCB p) as [s|].
      * rewrite cluster_break_of_gcb_table in He.
        destruct (gcb_table !! s); simplify_eq; reflexivity.
      * rewrite cluster_break_of_gcb_None in He. simplify_eq; reflexivity.
Qed.

Ltac case_py_eq :=
  repeat match goal with
    | |- context [py_eq ?x ?lit] =>
        let E := fresh "E" in
        destruct (py_eq x lit) eqn:E;
        [apply py_eq_true in E; try subst x; simpl | apply py_eq_false in E; simpl]
    end.

Lemma width_of_ea_table (char_ea : pystr) :
  (char_ea ∈ [Some "N"; Some "Na"; Some "H"]%string -> width_of_ea char_ea = Ok Narrow)
  /\ (char_ea ∈ [Some "F"; Some "W"]%string -> width_of_ea char_ea = Ok Wide)
  /\ (char_ea = Some "A"%string -> width_of_ea char_ea = Ok Ambiguous)
  /\ (raises (width_of_ea char_ea) <->
      forall code, code ∈ ea_codes -> char_ea <> Some code).
Proof.
  repeat split.
  - intros Hin. repeat (apply elem_of_cons in Hin as [->|Hin]; [reflexivity|]).
    by apply elem_of_nil in Hin.
  - intros Hin. repeat (apply elem_of_cons in Hin as [->|Hin]; [reflexivity|]).
    by apply elem_of_nil in Hin.
  - by intros ->.
  - intros [e He] code Hcode ->. unfold ea_codes in Hcode.
    repeat (apply elem_of_cons in Hcode as [->|Hcode]; [discriminate He|]).
    by apply elem_of_nil in Hcode.
  - intros Hno. unfold width_of_ea.
    assert (forall lit, lit ∈ ea_codes -> py_eq char_ea lit = false) as E.
    { intros lit Hl. apply py_eq_false. by apply Hno. }
    rewrite !E by (unfold ea_codes; in_list). by eexists.
Qed.

Lemma classify_steps (p : properties) :
  classify p =
    cb ← derive_cluster_break p; width ← width_of p; build_trie_value cb width.
Proof.
  unfold classify, derive_cluster_break.
  destruct (cluster_break_of_gcb (GCB p)) as [cb|]; [simpl|done].
  destruct (extpict_override (ExtPict p) cb) as [cb1|]; [simpl|done].
  by destruct (incb_override (InCB p) cb1).
Qed.

Lemma build_trie_value_returns cb width : returns (build_trie_value cb width).
Proof.
  destruct (build_trie_value_byte cb width) as (v & Hv & _). by exists v.
Qed.

Lemma emoji_test (p : properties) :
  py_eq (Emoji p) "Y" && py_eq (EPres p) "Y" = bool_decide (emoji_presentation p).
Proof.
  unfold emoji_presentation.
  destruct (py_eq (Emoji p) "Y") eqn:E1; destruct (py_eq (EPres p) "Y") eqn:E2;
    simpl; symmetry;
    first [apply bool_decide_eq_true | apply bool_decide_eq_false];
    rewrite ?py_eq_true, ?py_eq_false in *; tauto.
Qed.

Lemma width_of_cases (p : properties) (char_gc : string) :
  gc p = Some char_gc ->
  width_of p =
    if decide (starts_with_M char_gc) then Ok ZeroWidth
    else if decide (emoji_presentation p) then Ok Wide
    else width_of_ea (ea p).
Proof.
  intros Hgc. unfold width_of, derive_width. rewrite Hgc.
  destruct (decide (starts_with_M char_gc)) as [HM|HM].
  - by rewrite (startswith_M_true _ HM).
  - rewrite (startswith_M_false _ HM). simpl. rewrite emoji_test.
    by destruct (decide (emoji_presentation p));
      [rewrite bool_decide_eq_true_2|rewrite bool_decide_eq_false_2].
Qed.

(** C4: the width of a character with general category [char_gc] follows the
    priority order: a category starting with "M" gives ZeroWidth; otherwise
    both emoji flags "Y" give Wide; otherwise the east-asian-width code is
    mapped N/Na/H to Narrow, F/W to Wide and A to Ambiguous; and the width
    derivation raises if and only if it reaches that third rule with a code
    that is none of the six.  Once the cluster break has been derived, the
    classification as a whole raises under exactly that condition. *)
Theorem width_priority (p : properties) (char_gc : string) :
  gc p = Some char_gc ->
  (starts_with_M char_gc -> width_of p = Ok ZeroWidth)
  /\ (~ starts_with_M char_gc -> emoji_presentation p -> width_of p = Ok Wide)
  /\ (~ starts_with_M char_gc -> ~ emoji_presentation p ->
      (ea p ∈ [Some "N"; Some "Na"; Some "H"]%string -> width_of p = Ok Narrow)
      /\ (ea p ∈ [Some "F"; Some "W"]%string -> width_of p = Ok Wide)
      /\ (ea p = Some "A"%string -> width_of p = Ok Ambiguous))
  /\ (raises (width_of p) <->
      ~ starts_with_M char_gc /\ ~ emoji_presentation p
      /\ forall code, code ∈ ea_codes -> ea p <> Some code)
  /\ (returns (derive_cluster_break p) ->
      (raises (classify p) <->
       ~ starts_with_M char_gc /\ ~ emoji_presentation p
       /\ forall code, code ∈ ea_codes -> ea p <> Some code)).
Proof.
  intros Hgc. pose proof (width_of_cases p char_gc Hgc) as Hw.
  destruct (width_of_ea_table (ea p)) as (HN & HW & HA & Hraise).
  assert (raises (width_of p) <->
          ~ starts_with_M char_gc /\ ~ emoji_presentation p
          /\ forall code, code ∈ ea_codes -> ea p <> Some code) as Hiff.
  { rewrite Hw. rewrite <- Hraise.
    destruct (decide (starts_with_M char_gc)); [|destruct (decide (emoji_presentation p))].
    - split; [intros [? [=]]|tauto].
    - split; [intros [? [=]]|tauto].
    - tauto. }
  split; [|split; [|split; [|split; [exact Hiff|]]]].
  - intros HM. rewrite Hw. by rewrite decide_True.
  - intros HM HE. rewrite Hw. by rewrite decide_False, decide_True.
  - intros HM HE. rewrite Hw. rewrite !decide_False by done. auto.
  - intros [cb Hcb]. rewrite <- Hiff. rewrite classify_steps, Hcb. simpl.
    destruct (width_of p) as [w|e']; simpl.
    + destruct (build_trie_value_returns cb w) as [v ->].
      split; intros [e1 [=]].
    + split; intros _; by eexists.
Qed.

Lemma extpict_override_cases (char_extpict : pystr) (cb : ClusterBreak) :
  extpict_override char_extpict cb =
    if decide (char_extpict = Some "Y"%string) then
      if decide (cb = OTHER) then Ok EXTENDED_PICTOGRAPHIC else Raise AssertionError
    else Ok cb.
Proof.
  unfold extpict_override.
  destruct (py_eq char_extpict "Y") eqn:E;
    [apply py_eq_true in E|apply py_eq_false in E].
  - rewrite decide_True by done. by destruct (decide (cb = OTHER)); destruct cb.
  - by rewrite decide_False.
Qed.

Lemma incb_override_cases (char_incb : pystr) (cb : ClusterBreak) :
  incb_override char_incb cb =
    if decide (char_incb = Some "Linker"%string) then
      if decide (cb = EXTEND) then Ok CONJUNCT_LINKER else Raise AssertionError
    else Ok cb.
Proof.
  unfold incb_override.
  destruct (py_eq char_incb "Linker") eqn:E;
    [apply py_eq_true in E|apply py_eq_false in E].
  - rewrite decide_True by done. by destruct (decide (cb = EXTEND)); destruct cb.
  - by rewrite decide_False.
Qed.

Lemma classify_cluster_break_raises (p : properties) (e : exn) :
  derive_cluster_break p = Raise e -> classify p = Raise e.
Proof. intros H. by rewrite classify_steps, H. Qed.

(** C6: with [cb] the cluster break given by the GCB table, an
    extended-pictographic flag "Y" makes the classification fail with an
    assertion error unless [cb] is Other, in which case the cluster break
    becomes ExtendedPictographic; then, on the cluster break [cb1] left by
    that step, an indic-conjunct-break code "Linker" makes the classification
    fail with an assertion error unless [cb1] is Extend, in which case the
    cluster break becomes ConjunctLinker.  Without the flag (resp. the code)
    the step leaves the cluster break as it is. *)
Theorem extpict_then_incb (p : properties) (cb : ClusterBreak) :
  cluster_break_of_gcb (GCB p) = Ok cb ->
  (ExtPict p = Some "Y"%string -> cb <> OTHER ->
     extpict_override (ExtPict p) cb = Raise AssertionError
     /\ classify p = Raise AssertionError)
  /\ (ExtPict p = Some "Y"%string -> cb = OTHER ->
     extpict_override (ExtPict p) cb = Ok EXTENDED_PICTOGRAPHIC)
  /\ (ExtPict p <> Some "Y"%string -> extpict_override (ExtPict p) cb = Ok cb)
  /\ forall cb1, extpict_override (ExtPict p) cb = Ok cb1 ->
     (InCB p = Some "Linker"%string -> cb1 <> EXTEND ->
        incb_override (InCB p) cb1 = Raise AssertionError
        /\ classify p = Raise AssertionError)
     /\ (InCB p = Some "Linker"%string -> cb1 = EXTEND ->
        derive_cluster_break p = Ok CONJUNCT_LINKER)
     /\ (InCB p <> Some "Linker"%string -> derive_cluster_break p = Ok cb1).
Proof.
  intros Hgcb.
  assert (forall cb1, extpict_override (ExtPict p) cb = Ok cb1 ->
          derive_cluster_break p = incb_override (InCB p) cb1) as Hstep.
  { intros cb1 H1. unfold derive_cluster_break. rewrite Hgcb. simpl. by rewrite H1. }
  split; [|split; [|split]].
  - intros HY Hcb. rewrite extpict_override_cases at 1.
    rewrite decide_True, decide_False by done. split; [done|].
    apply classify_cluster_break_raises. unfold derive_cluster_break.
    rewrite Hgcb. simpl. rewrite extpict_override_cases.
    by rewrite decide_True, decide_False.
  - intros HY Hcb. rewrite extpict_override_cases.
    by rewrite !decide_True.
  - intros HY. rewrite extpict_override_cases. by rewrite decide_False.
  - intros cb1 H1. split; [|split].
    + intros HL Hcb1. rewrite incb_override_cases at 1.
      rewrite decide_True, decide_False by done. split; [done|].
      apply classify_cluster_break_raises. rewrite (Hstep _ H1).
      rewrite incb_override_cases. by rewrite decide_True, decide_False.
    + intros HL Hcb1. rewrite (Hstep _ H1), incb_override_cases.
      by rewrite !decide_True.
    + intros HL. rewrite (Hstep _ H1), incb_override_cases.
      by rewrite decide_False.
Qed.

(** ** Loops *)

Lemma for_each_app {S A} (body : S -> A -> result S) (s : S) (l1 l2 : list A) :
  for_each body s (l1 ++ l2) = s' ← for_each body s l1; for_each body s' l2.
Proof.
  revert s. induction l1 as [|a l1 IH]; intros s; simpl; [done|].
  destruct (body s a) as [s1|e]; simpl; [apply IH|done].
Qed.

(** A relation between the state before and after one iteration that is
    reflexive and transitive relates the states around the whole loop. *)
Lemma for_each_preserves {S A} (R : S -> S -> Prop) (body : S -> A -> result S)
    (l : list A) :
  (forall s, R s s) ->
  (forall s1 s2 s3, R s1 s2 -> R s2 s3 -> R s1 s3) ->
  (forall s a s', a ∈ l -> body s a = Ok s' -> R s s') ->
  forall s s', for_each body s l = Ok s' -> R s s'.
Proof.
  intros Hrefl Htrans. induction l as [|a l IH]; intros Hbody s s' Hrun; simpl in Hrun.
  - by simplify_eq.
  - apply bind_Ok in Hrun as (s1 & H1 & Hrest).
    apply (Htrans _ s1).
    + apply (Hbody _ a); [apply list_elem_of_here|done].
    + apply IH; [|done]. intros s0 a0 s0' Ha0. apply Hbody.
      by apply list_elem_of_further.
Qed.

(** ** The native trie and its wrappers *)

Lemma c_uint32_small (x : Z) : 0 <= x < 2 ^ 32 -> c_uint32 x = x.
Proof. intros H. unfold c_uint32. by apply Z.mod_small. Qed.

Lemma c_uint32_range (x : Z) : 0 <= c_uint32 x < 2 ^ 32.
Proof. unfold c_uint32. apply Z.mod_pos_bound. done. Qed.

Lemma foldr_insert_lookup (v : Z) (l : list Z) (m : gmap Z Z) (c : Z) :
  foldr (fun k m => <[k := v]> m) m l !! c =
    if decide (c ∈ l) then Some v else m !! c.
Proof.
  induction l as [|k l IH]; cbn [foldr].
  - case_decide as Hin; [by apply elem_of_nil in Hin|done].
  - destruct (decide (k = c)) as [->|Hne].
    + rewrite lookup_insert_eq. rewrite decide_True; [done|]. apply list_elem_of_here.
    + rewrite lookup_insert_ne by done. rewrite IH.
      destruct (decide (c ∈ l)) as [Hin|Hout].
      * rewrite decide_True; [done|]. by apply list_elem_of_further.
      * rewrite decide_False; [done|]. intros [?|?]%elem_of_cons; congruence.
Qed.

Lemma fill_lookup (start end_ v : Z) (m : gmap Z Z) (c : Z) :
  icu.fill start end_ v m !! c =
    if decide (start <= c <= end_) then Some v else m !! c.
Proof.
  unfold icu.fill. rewrite foldr_insert_lookup.
  destruct (decide (start <= c <= end_)) as [Hin|Hout].
  - rewrite decide_True; [done|]. apply elem_of_seqZ. lia.
  - rewrite decide_False; [done|]. rewrite elem_of_seqZ. lia.
Qed.

Lemma umutablecptrie_set_Ok (t t' : icu.UMutableCPTrie) (c v : Z) :
  umutablecptrie_set t c v = Ok t' <->
  c_uint32 c <= icu.MAX_UNICODE
  /\ t' = icu.MutableTrie (icu.initialValue t) (icu.errorValue t)
            (<[c_uint32 c := c_uint32 v]> (icu.data t)).
Proof.
  unfold umutablecptrie_set, icu.umutablecptrie_set.
  case_bool_decide; simpl; split.
  - intros [=].
  - intros [? _]. lia.
  - intros [= <-]. split; [lia|done].
  - by intros [_ ->].
Qed.

Lemma umutablecptrie_setRange_Ok (t t' : icu.UMutableCPTrie) (a b v : Z) :
  umutablecptrie_setRange t a b v = Ok t' <->
  c_uint32 a <= c_uint32 b <= icu.MAX_UNICODE
  /\ t' = icu.MutableTrie (icu.initialValue t) (icu.errorValue t)
            (icu.fill (c_uint32 a) (c_uint32 b) (c_uint32 v) (icu.data t)).
Proof.
  unfold umutablecptrie_setRange, icu.umutablecptrie_setRange.
  repeat case_bool_decide; simpl; split;
    first [by intros [=] | intros [? _]; lia | intros [= <-]; split; [lia|done]
          | by intros [_ ->]].
Qed.

Lemma buildImmutable_fast_8 (m : icu.UMutableCPTrie) :
  umutablecptrie_buildImmutable m UCPTRIE_TYPE_FAST UCPTRIE_VALUE_BITS_8 =
    Ok (icu.Trie 0 2 (Z.land (icu.initialValue m) 0xff) (Z.land (icu.errorValue m) 0xff)
          ((fun v => Z.land v 0xff) <$> icu.data m)).
Proof. reflexivity. Qed.

Lemma ucptrie_get_built (m : icu.UMutableCPTrie) (trie : icu.UCPTrie) (c : Z) :
  umutablecptrie_buildImmutable m UCPTRIE_TYPE_FAST UCPTRIE_VALUE_BITS_8 = Ok trie ->
  icu.ucptrie_get trie c = Z.land (icu.umutablecptrie_get m c) 0xff.
Proof.
  rewrite buildImmutable_fast_8. intros [= <-].
  unfold icu.ucptrie_get, icu.umutablecptrie_get. simpl.
  case_bool_decide; [|done].
  rewrite lookup_fmap. by destruct (icu.data m !! c).
Qed.

Lemma land_byte (v : Z) : 0 <= v < 256 -> Z.land v 0xff = v.
Proof.
  intros H. change 0xff with (Z.ones 8). rewrite Z.land_ones by lia.
  apply Z.mod_small. lia.
Qed.

Lemma land_byte_range (v : Z) : 0 <= Z.land v 0xff < 256.
Proof.
  change 0xff with (Z.ones 8). rewrite Z.land_ones by lia.
  apply Z.mod_pos_bound. lia.
Qed.

(** What one call leaves in the trie. *)
Lemma submit_Ok (t t' : icu.UMutableCPTrie) (s : submission) :
  submit t s = Ok t' ->
  icu.initialValue t' = icu.initialValue t
  /\ icu.errorValue t' = icu.errorValue t
  /\ forall c, icu.data t' !! c =
       if decide (contains c (as_uint32 s)) then Some (sub_value (as_uint32 s))
       else icu.data t !! c.
Proof.
  destruct s as [c0 v|a b v]; simpl.
  - intros (Hc & ->)%umutablecptrie_set_Ok. repeat split. intros c. simpl.
    unfold contains. simpl. destruct (decide (c_uint32 c0 = c)) as [<-|Hne].
    + rewrite lookup_insert_eq. rewrite decide_True; [done|lia].
    + rewrite lookup_insert_ne by done. rewrite decide_False; [done|lia].
  - intros (Hc & ->)%umutablecptrie_setRange_Ok. repeat split. intros c. simpl.
    apply fill_lookup.
Qed.

Lemma submit_returns (t : icu.UMutableCPTrie) (s : submission) :
  sub_start (as_uint32 s) <= sub_end (as_uint32 s) <= icu.MAX_UNICODE ->
  returns (submit t s).
Proof.
  destruct s as [c0 v|a b v]; simpl; intros H; eexists.
  - apply umutablecptrie_set_Ok. split; [lia|done].
  - apply umutablecptrie_setRange_Ok. split; [lia|done].
Qed.

Lemma last_write_cons (s : submission) (R : list submission) (c : Z) :
  last_write (s :: R) c =
    match last_write R c with
    | Some v => Some v
    | None => if decide (contains c s) then Some (sub_value s) else None
    end.
Proof.
  unfold last_write. rewrite filter_cons.
  destruct (decide (contains c s)); [|by destruct (last _)].
  rewrite last_cons. by destruct (last _).
Qed.

(** The cells of the mutable trie after a run of calls: the last call whose
    (converted) range contains the cell decides it. *)
Lemma for_each_submit_data (R : list submission) (t t' : icu.UMutableCPTrie) :
  for_each submit t R = Ok t' ->
  icu.initialValue t' = icu.initialValue t
  /\ icu.errorValue t' = icu.errorValue t
  /\ forall c, icu.data t' !! c =
       match last_write (as_uint32 <$> R) c with
       | Some v => Some v
       | None => icu.data t !! c
       end.
Proof.
  revert t. induction R as [|s R IH]; intros t Hrun; simpl in Hrun.
  - by simplify_eq.
  - apply bind_Ok in Hrun as (t1 & H1 & Hrest).
    apply submit_Ok in H1 as (Hi1 & He1 & Hd1).
    apply IH in Hrest as (Hi & He & Hd).
    split; [congruence|]. split; [congruence|]. intros c.
    rewrite Hd, fmap_cons, last_write_cons, Hd1.
    destruct (last_write (as_uint32 <$> R) c); [done|]. by case_decide.
Qed.

Lemma as_uint32_well_formed (s : submission) : well_formed s -> as_uint32 s = s.
Proof.
  unfold well_formed, icu.MAX_UNICODE.
  destruct s as [c v|a b v]; simpl; intros H;
    rewrite !c_uint32_small by lia; done.
Qed.

Lemma for_each_submit_returns (R : list submission) (t : icu.UMutableCPTrie) :
  Forall well_formed R -> returns (for_each submit t R).
Proof.
  intros HR. revert t. induction HR as [|s R Hs HR IH]; intros t; simpl.
  - by eexists.
  - destruct (submit_returns t s) as [t1 ->].
    + rewrite (as_uint32_well_formed s Hs). unfold well_formed in Hs. lia.
    + simpl. apply IH.
Qed.

(** C2: a trie opened with a default value and filled by any sequence of
    well-formed single-codepoint and range submissions is built without
    error, and looking up any codepoint of [0, 0x10FFFF] in the built trie
    gives the value of the last submission whose range contains it, or the
    default value when no submission does. *)
Theorem last_write_wins (initial_value error_value : Z) (R : list submission) :
  0 <= initial_value < 256 ->
  Forall well_formed R ->
  exists t0 m trie,
    umutablecptrie_open initial_value error_value = Ok t0
    /\ for_each submit t0 R = Ok m
    /\ umutablecptrie_buildImmutable m UCPTRIE_TYPE_FAST UCPTRIE_VALUE_BITS_8 = Ok trie
    /\ forall c, 0 <= c <= 0x10FFFF ->
         icu.ucptrie_get trie c = default initial_value (last_write R c).
Proof.
  intros Hinit HR.
  destruct (for_each_submit_returns R
              (icu.MutableTrie (c_uint32 initial_value) (c_uint32 error_value) ∅) HR)
    as [m Hm].
  eexists _, m, _. split; [reflexivity|]. split; [exact Hm|].
  split; [apply buildImmutable_fast_8|]. intros c Hc.
  erewrite ucptrie_get_built by apply buildImmutable_fast_8.
  apply for_each_submit_data in Hm as (Hi & _ & Hd). simpl in Hi, Hd.
  unfold icu.umutablecptrie_get. rewrite bool_decide_eq_true_2 by done.
  rewrite Hd, Hi, lookup_empty.
  replace (as_uint32 <$> R) with R.
  - rewrite c_uint32_small by lia.
    destruct (last_write R c) as [v|] eqn:Hv; simpl; [|by apply land_byte].
    apply land_byte. unfold last_write in Hv.
    destruct (last (filter (contains c) R)) as [s|] eqn:Hs; [|done].
    simpl in Hv. simplify_eq. apply last_Some_elem_of in Hs.
    apply list_elem_of_filter in Hs as [_ Hs].
    rewrite Forall_forall in HR. apply HR in Hs. unfold well_formed in Hs. lia.
  - clear Hd. induction HR as [|s R Hs HR IH]; [done|].
    by rewrite fmap_cons, <- IH, (as_uint32_well_formed s Hs).
Qed.

(** ** Writing one record *)

Lemma umutablecptrie_get_cell (t : icu.UMutableCPTrie) (c : Z) :
  icu.umutablecptrie_get t c =
    if bool_decide (0 <= c <= icu.MAX_UNICODE) then cell t c else icu.errorValue t.
Proof. reflexivity. Qed.

Lemma lookup_built_Ok (t : icu.UMutableCPTrie) (c : Z) :
  lookup_built t c = Ok (Z.land (icu.umutablecptrie_get t c) 0xff).
Proof.
  unfold lookup_built. rewrite buildImmutable_fast_8. simpl. f_equal.
  apply ucptrie_get_built, buildImmutable_fast_8.
Qed.

Ltac set_case :=
  intros (Hc & ->)%umutablecptrie_set_Ok; simpl;
  split; [|split];
  [ repeat split; intros c;
    destruct (decide (char_covers _ c)) as [Hcov|Hcov];
    unfold char_covers in Hcov; simpl in Hcov;
    [ subst c; by rewrite lookup_insert_eq | by rewrite lookup_insert_ne ]
  | unfold char_covers; simpl; intros c ->;
    match goal with |- context [c_uint32 ?n] => pose proof (c_uint32_range n) end; lia
  | intros u; eexists; apply umutablecptrie_set_Ok; done ].

(** Whether the write of a record succeeds depends on the record alone, and
    it replaces exactly the cells the record designates. *)
Lemma store_unskipped_Ok (t t' : icu.UMutableCPTrie) (v : Z) (char : char_element) :
  store_unskipped t v char = Ok t' ->
  (icu.initialValue t' = icu.initialValue t
   /\ icu.errorValue t' = icu.errorValue t
   /\ forall c, icu.data t' !! c =
        if decide (char_covers char c) then Some (c_uint32 v) else icu.data t !! c)
  /\ (forall c, char_covers char c -> 0 <= c <= icu.MAX_UNICODE)
  /\ forall u, returns (store_unskipped u v char).
Proof.
  destruct char as [p [| |n] [| |a] [| |b]]; unfold store_unskipped; simpl;
    try done.
  - intros (Hc & ->)%umutablecptrie_setRange_Ok. simpl.
    split; [|split].
    + repeat split. intros c. rewrite fill_lookup.
      destruct (decide (char_covers _ c)) as [Hcov|Hcov];
        unfold char_covers in Hcov; simpl in Hcov;
        [by rewrite decide_True|by rewrite decide_False].
    + unfold char_covers. simpl. intros c Hcov. pose proof (c_uint32_range a). lia.
    + intros u. eexists. apply umutablecptrie_setRange_Ok. done.
  - set_case.
  - set_case.
  - set_case.
  - set_case.
  - set_case.
  - set_case.
  - set_case.
  - set_case.
  - set_case.
Qed.

Lemma store_cases (initial_value : Z) (t : icu.UMutableCPTrie) (v : Z)
    (char : char_element) :
  store initial_value t v char =
    if decide (v = initial_value) then Ok t else store_unskipped t v char.
Proof.
  unfold store, store_unskipped. case_bool_decide.
  - by rewrite decide_True.
  - rewrite decide_False by done. by destruct (cp char).
Qed.

(** ** The manual overrides *)

Lemma setRange_small (t : icu.UMutableCPTrie) (a b v : Z) :
  0 <= a <= b -> b <= icu.MAX_UNICODE -> 0 <= v < 2 ^ 32 ->
  umutablecptrie_setRange t a b v =
    Ok (icu.MutableTrie (icu.initialValue t) (icu.errorValue t)
          (icu.fill a b v (icu.data t))).
Proof.
  intros Ha Hb Hv. apply umutablecptrie_setRange_Ok.
  unfold icu.MAX_UNICODE in *. rewrite !c_uint32_small by lia. split; [lia|done].
Qed.

Lemma manual_overrides_Ok (t : icu.UMutableCPTrie) :
  manual_overrides t =
    Ok (icu.MutableTrie (icu.initialValue t) (icu.errorValue t)
          (icu.fill 0xFE20 0xFE2F 1
             (icu.fill 0x4DC0 0x4DFF 1 (icu.fill 0x2500 0x259F 1 (icu.data t))))).
Proof.
  unfold manual_overrides.
  rewrite setRange_small by (unfold icu.MAX_UNICODE; lia). cbn [mbind result_bind].
  rewrite setRange_small by (unfold icu.MAX_UNICODE; lia). cbn [mbind result_bind].
  rewrite setRange_small by (unfold icu.MAX_UNICODE; lia). reflexivity.
Qed.

Lemma manual_overrides_data (t t' : icu.UMutableCPTrie) (c : Z) :
  manual_overrides t = Ok t' ->
  icu.data t' !! c = if decide (overridden c) then Some 1 else icu.data t !! c.
Proof.
  rewrite manual_overrides_Ok. intros [= <-]. simpl. rewrite !fill_lookup.
  unfold overridden. repeat case_decide; try done; lia.
Qed.

(** C10: the override pass always succeeds and writes only to the three
    ranges: for every codepoint outside their union, the value in the trie,
    and the value the built table answers, are what they were before the
    pass. *)
Theorem manual_overrides_frame (t : icu.UMutableCPTrie) (c : Z) :
  ~ overridden c ->
  exists t',
    manual_overrides t = Ok t'
    /\ icu.umutablecptrie_get t' c = icu.umutablecptrie_get t c
    /\ lookup_built t' c = lookup_built t c.
Proof.
  intros Hout. eexists. split; [apply manual_overrides_Ok|].
  assert (icu.umutablecptrie_get
            (icu.MutableTrie (icu.initialValue t) (icu.errorValue t)
               (icu.fill 0xFE20 0xFE2F 1
                  (icu.fill 0x4DC0 0x4DFF 1 (icu.fill 0x2500 0x259F 1 (icu.data t))))) c
          = icu.umutablecptrie_get t c) as Hget.
  { rewrite !umutablecptrie_get_cell. simpl. case_bool_decide; [|done].
    unfold cell. cbn [icu.initialValue].
    rewrite (manual_overrides_data t _ c (manual_overrides_Ok t)).
    by rewrite decide_False. }
  split; [exact Hget|]. by rewrite !lookup_built_Ok, Hget.
Qed.

(** ** The values installed when the trie is opened *)

Lemma initial_value_64 : initial_value = Ok 64.
Proof. reflexivity. Qed.

Lemma error_value_192 : error_value = Ok 192.
Proof. reflexivity. Qed.

(** C9: the error value handed to [umutablecptrie_open] packs (Other,
    Ambiguous), the byte 0xC0, and the default value packs (Other, Narrow),
    the byte 0x40; the two differ in their width field (Ambiguous against
    Narrow), so in the table built from the freshly opened trie a query
    outside [0, 0x10FFFF] answers 0xC0 and a query inside answers 0x40. *)
Theorem error_value_distinguishable (c : Z) :
  error_value = build_trie_value OTHER Ambiguous
  /\ error_value = Ok 0xC0
  /\ initial_value = build_trie_value OTHER Narrow
  /\ initial_value = Ok 0x40
  /\ INTO_CHARACTER_WIDTH 0xC0 = value Ambiguous
  /\ INTO_CHARACTER_WIDTH 0x40 = value Narrow
  /\ INTO_CLUSTER_BREAK 0xC0 = value OTHER
  /\ INTO_CLUSTER_BREAK 0x40 = value OTHER
  /\ INTO_CHARACTER_WIDTH 0xC0 <> INTO_CHARACTER_WIDTH 0x40
  /\ exists t0,
       (iv ← initial_value; ev ← error_value; umutablecptrie_open iv ev) = Ok t0
       /\ lookup_built t0 c = if decide (0 <= c <= 0x10FFFF) then Ok 0x40 else Ok 0xC0.
Proof.
  repeat (split; [done|]). eexists. split; [reflexivity|].
  rewrite lookup_built_Ok, umutablecptrie_get_cell.
  case_bool_decide as Hc.
  - rewrite decide_True by exact Hc. reflexivity.
  - rewrite decide_False by exact Hc. reflexivity.
Qed.

(** ** The run of [main] *)

Lemma main_steps (root : list group_element) :
  main root =
    m ← for_each (process_group 64) fresh_trie root;
    m' ← manual_overrides m;
    umutablecptrie_buildImmutable m' UCPTRIE_TYPE_FAST UCPTRIE_VALUE_BITS_8.
Proof.
  unfold main. rewrite initial_value_64, error_value_192. reflexivity.
Qed.

Lemma main_Ok (root : list group_element) (trie : icu.UCPTrie) :
  main root = Ok trie ->
  exists m m',
    for_each (process_group 64) fresh_trie root = Ok m
    /\ manual_overrides m = Ok m'
    /\ forall c, icu.ucptrie_get trie c = Z.land (icu.umutablecptrie_get m' c) 0xff.
Proof.
  rewrite main_steps. intros (m & Hm & (m' & Hm' & Hb)%bind_Ok)%bind_Ok.
  exists m, m'. repeat split; [done..|]. intros c. by apply ucptrie_get_built.
Qed.

(** C1 (as the code behaves): after the override pass every codepoint of the
    three ranges holds the raw value 1 in the built table; its width field
    (bits 6-7) is therefore 0, ZeroWidth, and its cluster-break field is 1,
    Control, whatever the repertoire assigned. *)
Theorem overrides_store_raw_one (root : list group_element) (trie : icu.UCPTrie) (c : Z) :
  main root = Ok trie ->
  overridden c ->
  icu.ucptrie_get trie c = 1
  /\ INTO_CHARACTER_WIDTH (icu.ucptrie_get trie c) = value ZeroWidth
  /\ INTO_CHARACTER_WIDTH (icu.ucptrie_get trie c) <> value Narrow
  /\ INTO_CLUSTER_BREAK (icu.ucptrie_get trie c) = value CONTROL.
Proof.
  intros (m & m' & Hm & Hm' & Hget)%main_Ok Hc.
  assert (icu.ucptrie_get trie c = 1) as ->; [|done].
  rewrite Hget, umutablecptrie_get_cell.
  rewrite bool_decide_eq_true_2 by (unfold overridden, icu.MAX_UNICODE in *; lia).
  unfold cell. rewrite (manual_overrides_data m m' c Hm').
  by rewrite decide_True.
Qed.

(** ** The loop over the repertoire *)

Lemma is_packed_byte (v : Z) : is_packed v -> 0 <= v < 256.
Proof.
  intros (cb & w & Hv).
  destruct (build_trie_value_byte cb w) as (v' & Hv' & Hr).
  congruence.
Qed.

Lemma classify_packed (p : properties) (v : Z) : classify p = Ok v -> is_packed v.
Proof.
  rewrite classify_steps.
  intros (cb & _ & (w & _ & Hv)%bind_Ok)%bind_Ok. by exists cb, w.
Qed.

Lemma written_within_refl Q t : written_within Q t t.
Proof. repeat split. intros c. by left. Qed.

Lemma written_within_trans Q t1 t2 t3 :
  written_within Q t1 t2 -> written_within Q t2 t3 -> written_within Q t1 t3.
Proof.
  intros (Hi1 & He1 & Hd1) (Hi2 & He2 & Hd2).
  split; [congruence|]. split; [congruence|]. intros c.
  destruct (Hd2 c) as [Heq|Hw]; [|by right].
  rewrite Heq. apply Hd1.
Qed.

Lemma written_within_mono (Q Q' : Z -> Prop) t t' :
  (forall c, Q c -> Q' c) -> written_within Q t t' -> written_within Q' t t'.
Proof.
  intros HQ (Hi & He & Hd). repeat split; [done..|]. intros c.
  destruct (Hd c) as [Heq|(v & Hv & Hp & Hq)]; [by left|].
  right. exists v. auto.
Qed.

Lemma process_char_written iv group t char t' :
  process_char iv group t char = Ok t' ->
  written_within (char_submits iv group char) t t'.
Proof.
  unfold process_char. intros (v & Hv & Hst)%bind_Ok.
  rewrite store_cases in Hst. case_decide as Hne.
  - simplify_eq. apply written_within_refl.
  - apply store_unskipped_Ok in Hst as ((Hi & He & Hd) & _ & _).
    repeat split; [done..|]. intros c. rewrite Hd.
    case_decide as Hcov; [|by left]. right.
    pose proof (classify_packed _ _ Hv) as Hp.
    exists v. rewrite c_uint32_small by (apply is_packed_byte in Hp; lia).
    repeat split; [done|]. by exists v.
Qed.

Lemma process_group_written t group t' :
  process_group 64 t group = Ok t' ->
  written_within
    (fun c => exists char, char ∈ chars group /\ char_submits 64 (group_props group) char c)
    t t'.
Proof.
  unfold process_group. apply for_each_preserves.
  - apply written_within_refl.
  - apply written_within_trans.
  - intros s char s' Hin Hbody. apply process_char_written in Hbody.
    eapply written_within_mono; [|exact Hbody]. intros c Hc. by exists char.
Qed.

Lemma repertoire_written root t t' :
  for_each (process_group 64) t root = Ok t' ->
  written_within (submitted root) t t'.
Proof.
  apply for_each_preserves.
  - apply written_within_refl.
  - apply written_within_trans.
  - intros s group s' Hin Hbody. apply process_group_written in Hbody.
    eapply written_within_mono; [|exact Hbody].
    intros c (char & Hchar & Hc). by exists group, char.
Qed.

(** C7: in the table [main] builds, every codepoint of [0, 0x10FFFF] answers
    a packed value (some cluster break with some width), a codepoint for
    which no record submitted a value and which lies outside the override
    ranges answers the default packed from (Other, Narrow), and every query
    outside [0, 0x10FFFF] answers the error value packed from (Other,
    Ambiguous). *)
Theorem lookup_total (root : list group_element) (trie : icu.UCPTrie) :
  main root = Ok trie ->
  (forall c, 0 <= c <= 0x10FFFF -> is_packed (icu.ucptrie_get trie c))
  /\ (forall c, 0 <= c <= 0x10FFFF -> ~ submitted root c -> ~ overridden c ->
      Ok (icu.ucptrie_get trie c) = build_trie_value OTHER Narrow)
  /\ (forall c, ~ 0 <= c <= 0x10FFFF ->
      Ok (icu.ucptrie_get trie c) = build_trie_value OTHER Ambiguous).
Proof.
  intros (m & m' & Hm & Hm' & Hget)%main_Ok.
  apply repertoire_written in Hm as (Hi & He & Hd).
  assert (icu.initialValue m' = 64 /\ icu.errorValue m' = 192) as [Hi' He'].
  { rewrite manual_overrides_Ok in Hm'. simplify_eq. simpl. by rewrite Hi, He. }
  assert (forall c, 0 <= c <= 0x10FFFF ->
          icu.ucptrie_get trie c =
            Z.land (if decide (overridden c) then 1
                    else default 64 (icu.data m !! c)) 0xff) as Hin.
  { intros c Hc. rewrite Hget, umutablecptrie_get_cell.
    rewrite bool_decide_eq_true_2 by done. unfold cell.
    rewrite (manual_overrides_data m m' c Hm'), Hi'. by case_decide. }
  split; [|split].
  - intros c Hc. rewrite (Hin c Hc). case_decide.
    + by exists CONTROL, ZeroWidth.
    + destruct (Hd c) as [->|(v & -> & Hp & _)]; simpl.
      * by exists OTHER, Narrow.
      * by rewrite land_byte by (by apply is_packed_byte).
  - intros c Hc Hsub Hov. rewrite (Hin c Hc). rewrite decide_False by done.
    destruct (Hd c) as [->|(v & _ & _ & Hq)]; [done|]. by destruct Hsub.
  - intros c Hc. rewrite Hget, umutablecptrie_get_cell.
    rewrite bool_decide_eq_false_2 by done. by rewrite He'.
Qed.

(** ** Skipping default-valued records *)

Lemma default_writes_fresh_prefix iv l x :
  default_writes_fresh iv (l ++ [x]) -> default_writes_fresh iv l.
Proof.
  intros H l1 char l2 v' char' c Hl. apply (H l1 char (l2 ++ [x])).
  rewrite Hl. by rewrite <- app_assoc.
Qed.

Lemma pairwise_disjoint_fresh iv l : pairwise_disjoint l -> default_writes_fresh iv l.
Proof.
  intros H l1 char l2 v' char' c Hl Hin _ Hcov.
  exact (H l1 (iv, char) l2 (v', char') c Hl Hin Hcov).
Qed.

(** The two loops run in step: same default and error value, same content
    in every cell, and a cell no earlier non-default record designates still
    holds the default. *)
Lemma store_all_simulation (iv ev : Z) (l : list (Z * char_element))
    (t2 : icu.UMutableCPTrie) :
  let t0 := icu.MutableTrie (c_uint32 iv) (c_uint32 ev) ∅ in
  default_writes_fresh iv l ->
  store_all_unskipped t0 l = Ok t2 ->
  exists t1,
    store_all iv t0 l = Ok t1
    /\ icu.initialValue t1 = c_uint32 iv /\ icu.initialValue t2 = c_uint32 iv
    /\ icu.errorValue t1 = icu.errorValue t2
    /\ (forall c, cell t1 c = cell t2 c)
    /\ (forall c, (forall v char, (v, char) ∈ l -> v <> iv -> ~ char_covers char c) ->
          cell t2 c = c_uint32 iv).
Proof.
  intros t0. revert t2. induction l as [|[v char] l IH] using rev_ind; intros t2 Hfresh Hrun.
  - injection Hrun as <-. exists t0. repeat split.
  - unfold store_all_unskipped in Hrun. rewrite for_each_app in Hrun.
    apply bind_Ok in Hrun as (t2' & Hrun' & Hlast). simpl in Hlast.
    apply bind_Ok in Hlast as (t2'' & Hlast & [= ->]).
    destruct (IH t2' (default_writes_fresh_prefix _ _ _ Hfresh) Hrun')
      as (t1' & Hrun1 & Hi1 & Hi2 & He & Hcell & Hdef).
    pose proof (store_unskipped_Ok _ _ _ _ Hlast) as ((Hi & He2 & Hd) & _ & Hret).
    assert (forall c, cell t2 c =
              if decide (char_covers char c) then c_uint32 v else cell t2' c) as Hc2.
    { intros c. unfold cell. rewrite Hd, Hi. by case_decide. }
    unfold store_all. rewrite for_each_app. fold (store_all iv t0 l). rewrite Hrun1.
    simpl. rewrite store_cases. destruct (decide (v = iv)) as [->|Hne]; simpl.
    + exists t1'. repeat split; [done|congruence|congruence|..].
      * intros c. rewrite Hc2. case_decide as Hcov; [|apply Hcell].
        rewrite Hcell. apply Hdef. intros v' char' Hin Hv' Hcov'.
        by apply (Hfresh l char [] v' char' c).
      * intros c Hno. rewrite Hc2. case_decide; [done|].
        apply Hdef. intros v' char' Hin. apply Hno.
        apply elem_of_app. by left.
    + destruct (Hret t1') as [t1 Ht1]. rewrite Ht1. exists t1.
      apply store_unskipped_Ok in Ht1 as ((Hi' & He' & Hd') & _ & _).
      repeat split; [congruence|congruence|congruence|..].
      * intros c. rewrite Hc2. unfold cell at 1. rewrite Hd', Hi', Hi1.
        case_decide; [done|]. rewrite <- Hcell. unfold cell. by rewrite Hi1.
      * intros c Hno. rewrite Hc2. case_decide as Hcov.
        -- destruct (Hno v char); [|done..]. apply elem_of_app. right.
           apply list_elem_of_here.
        -- apply Hdef. intros v' char' Hin. apply Hno. apply elem_of_app. by left.
Qed.

(** C8 (as amended): when no default-valued record designates a codepoint
    that an earlier record with another value designates, skipping the
    default-valued records changes nothing: if writing every record in order
    succeeds, so does the loop that skips them, and the tables built from the
    two tries answer the same value for every query. *)
Theorem skip_default_noop (initial_value error_value : Z) (l : list (Z * char_element))
    (t0 t2 : icu.UMutableCPTrie) :
  default_writes_fresh initial_value l ->
  umutablecptrie_open initial_value error_value = Ok t0 ->
  store_all_unskipped t0 l = Ok t2 ->
  exists t1,
    store_all initial_value t0 l = Ok t1
    /\ forall c, lookup_built t1 c = lookup_built t2 c.
Proof.
  intros Hfresh [= <-] Hrun.
  destruct (store_all_simulation _ _ _ _ Hfresh Hrun)
    as (t1 & Hrun1 & _ & _ & He & Hcell & _).
  exists t1. split; [done|]. intros c.
  rewrite !lookup_built_Ok, !umutablecptrie_get_cell. by rewrite Hcell, He.
Qed.

(** C8 (as stated) fails: with U+0041 listed twice, first with a wide value
    and then with the default value, writing both leaves the default while
    skipping the second leaves the wide value. *)
Lemma skip_default_changes_lookup :
  ~ (forall (l : list (Z * char_element)) (t0 t2 : icu.UMutableCPTrie),
       umutablecptrie_open 64 192 = Ok t0 ->
       store_all_unskipped t0 l = Ok t2 ->
       exists t1,
         store_all 64 t0 l = Ok t1
         /\ forall c, 0 <= c <= 0x10FFFF -> lookup_built t1 c = lookup_built t2 c).
Proof.
  intros H.
  destruct (H twice_0041 fresh_trie
              (icu.MutableTrie 64 192 (<[0x41 := 64]> (<[0x41 := 128]> ∅))))
    as (t1 & Hrun & Hsame); [reflexivity..|].
  vm_compute in Hrun. simplify_eq.
  specialize (Hsame 0x41). vm_compute in Hsame.
  assert (Ok 128 = Ok 64 :> result Z) as [=]. apply Hsame. split; discriminate.
Qed.

(** ** The theorems at sample inputs *)

Lemma width_priority_witness :
  gc combining_acute = Some "Mn"%string
  /\ width_of combining_acute = Ok ZeroWidth.
Proof.
  split; [reflexivity|].
  apply (proj1 (width_priority combining_acute "Mn" eq_refl)).
  exists "n"%string. reflexivity.
Defined.

Lemma extpict_then_incb_witness :
  cluster_break_of_gcb (GCB virama) = Ok EXTEND
  /\ derive_cluster_break virama = Ok CONJUNCT_LINKER.
Proof.
  split; [reflexivity|].
  destruct (extpict_then_incb virama EXTEND eq_refl) as (_ & _ & _ & H).
  destruct (H EXTEND eq_refl) as (_ & Hlinker & _).
  apply Hlinker; reflexivity.
Defined.

Lemma last_write_wins_witness :
  0 <= 64 < 256
  /\ Forall well_formed sample_submissions
  /\ exists t0 m trie,
       umutablecptrie_open 64 192 = Ok t0
       /\ for_each submit t0 sample_submissions = Ok m
       /\ umutablecptrie_buildImmutable m UCPTRIE_TYPE_FAST UCPTRIE_VALUE_BITS_8 = Ok trie
       /\ forall c, 0 <= c <= 0x10FFFF ->
            icu.ucptrie_get trie c = default 64 (last_write sample_submissions c).
Proof.
  assert (0 <= 64 < 256) as H1 by lia.
  assert (Forall well_formed sample_submissions) as H2.
  { repeat constructor; unfold icu.MAX_UNICODE; simpl; lia. }
  exact (conj H1 (conj H2 (last_write_wins 64 192 sample_submissions H1 H2))).
Defined.

Lemma manual_overrides_frame_witness :
  ~ overridden 0x41
  /\ exists t',
       manual_overrides fresh_trie = Ok t'
       /\ icu.umutablecptrie_get t' 0x41 = icu.umutablecptrie_get fresh_trie 0x41
       /\ lookup_built t' 0x41 = lookup_built fresh_trie 0x41.
Proof.
  assert (~ overridden 0x41) as H by (unfold overridden; lia).
  exact (conj H (manual_overrides_frame fresh_trie 0x41 H)).
Defined.

Lemma lookup_total_witness :
  exists trie,
    main sample_root = Ok trie
    /\ (forall c, 0 <= c <= 0x10FFFF -> is_packed (icu.ucptrie_get trie c))
    /\ (forall c, 0 <= c <= 0x10FFFF -> ~ submitted sample_root c -> ~ overridden c ->
        Ok (icu.ucptrie_get trie c) = build_trie_value OTHER Narrow)
    /\ (forall c, ~ 0 <= c <= 0x10FFFF ->
        Ok (icu.ucptrie_get trie c) = build_trie_value OTHER Ambiguous).
Proof.
  destruct (main sample_root) as [trie|e] eqn:Hmain; [|by vm_compute in Hmain].
  exists trie. split; [reflexivity|]. exact (lookup_total sample_root trie Hmain).
Defined.

Lemma overrides_store_raw_one_witness :
  exists trie,
    main sample_root = Ok trie
    /\ overridden 0x2500
    /\ icu.ucptrie_get trie 0x2500 = 1
    /\ INTO_CHARACTER_WIDTH (icu.ucptrie_get trie 0x2500) = value ZeroWidth
    /\ INTO_CHARACTER_WIDTH (icu.ucptrie_get trie 0x2500) <> value Narrow
    /\ INTO_CLUSTER_BREAK (icu.ucptrie_get trie 0x2500) = value CONTROL.
Proof.
  destruct (main sample_root) as [trie|e] eqn:Hmain; [|by vm_compute in Hmain].
  assert (overridden 0x2500) as H by (unfold overridden; lia).
  exists trie. split; [reflexivity|]. split; [exact H|].
  exact (overrides_store_raw_one sample_root trie 0x2500 Hmain H).
Defined.

Lemma once_each_fresh : default_writes_fresh 64 once_each.
Proof.
  intros l1 char l2 v' char' c Hl Hin Hv Hcov.
  destruct l1 as [|x1 [|x2 l1]].
  - by apply elem_of_nil in Hin.
  - injection Hl as <- <- <-. apply list_elem_of_singleton in Hin.
    injection Hin as -> ->. unfold char_covers in *. simpl in *. subst c.
    discriminate.
  - injection Hl as _ _ Hl. by destruct l1.
Qed.

Lemma skip_default_noop_witness :
  default_writes_fresh 64 once_each
  /\ umutablecptrie_open 64 192 = Ok fresh_trie
  /\ store_all_unskipped fresh_trie once_each =
       Ok (icu.MutableTrie 64 192 (<[0x42 := 64]> (<[0x41 := 128]> ∅)))
  /\ exists t1,
       store_all 64 fresh_trie once_each = Ok t1
       /\ forall c, lookup_built t1 c =
            lookup_built (icu.MutableTrie 64 192 (<[0x42 := 64]> (<[0x41 := 128]> ∅))) c.
Proof.
  assert (store_all_unskipped fresh_trie once_each =
            Ok (icu.MutableTrie 64 192 (<[0x42 := 64]> (<[0x41 := 128]> ∅)))) as H
    by reflexivity.
  exact (conj once_each_fresh (conj eq_refl (conj H
           (skip_default_noop 64 192 once_each fresh_trie _ once_each_fresh eq_refl H)))).
Defined.

(** * Further properties of the generator *)

(** ** Chunks and escapes *)

Lemma py_slice_forward {A} (lst : list A) (i n : Z) :
  0 <= i -> 0 <= n ->
  py_slice lst i (i + n) = take (Z.to_nat n) (drop (Z.to_nat i) lst).
Proof.
  intros Hi Hn. unfold py_slice, clamp_index.
  rewrite !bool_decide_eq_false_2 by lia.
  destruct (decide (i <= Z.of_nat (length lst))) as [Hle|Hgt].
  - rewrite (Z.min_l i) by lia.
    destruct (decide (i + n <= Z.of_nat (length lst))) as [Hle2|Hgt2].
    + rewrite Z.min_l by lia. f_equal. lia.
    + rewrite Z.min_r by lia.
      rewrite !take_ge; [done|rewrite length_drop; lia..].
  - rewrite !Z.min_r by lia.
    rewrite !drop_ge by lia. by rewrite !take_nil.
Qed.

Lemma seqZ_0_seq (len : Z) : seqZ 0 len = Z.of_nat <$> seq 0 (Z.to_nat len).
Proof.
  unfold seqZ. apply list_fmap_ext. intros _ k _. lia.
Qed.

(** For a positive chunk size the generator yields the pieces of length [n]
    at the offsets 0, n, 2n, ... *)
Lemma chunked_pieces {A} (lst : list A) (n : Z) :
  0 < n ->
  chunked lst n =
    Ok ((fun k : nat => take (Z.to_nat n) (drop (k * Z.to_nat n) lst)) <$>
          seq 0 (Z.to_nat ((Z.of_nat (length lst) + n - 1) / n))).
Proof.
  intros Hn. unfold chunked, range_from_0.
  rewrite bool_decide_eq_false_2 by lia. rewrite bool_decide_eq_true_2 by lia.
  simpl. f_equal.
  assert ((if bool_decide (0 < Z.of_nat (length lst))
           then (Z.of_nat (length lst) - 1) / n + 1 else 0)
          = (Z.of_nat (length lst) + n - 1) / n) as ->.
  { case_bool_decide as Hlen.
    - replace (Z.of_nat (length lst) + n - 1) with (Z.of_nat (length lst) - 1 + 1 * n) by lia.
      by rewrite Z.div_add by lia.
    - replace (Z.of_nat (length lst)) with 0 by lia. simpl.
      symmetry. apply Z.div_small. lia. }
  rewrite seqZ_0_seq, <- !list_fmap_compose.
  apply list_fmap_ext. intros _ k _. simpl.
  rewrite py_slice_forward by lia. do 2 f_equal. lia.
Qed.

Lemma concat_pieces {A} (lst : list A) (N c : nat) :
  mjoin ((fun k : nat => take N (drop (k * N) lst)) <$> seq 0 c) = take (c * N) lst.
Proof.
  induction c as [|c IH]; [by rewrite take_0|].
  rewrite seq_S, fmap_app, join_app, IH. simpl. rewrite app_nil_r.
  rewrite take_take_drop. f_equal. lia.
Qed.

(** X13: for a positive chunk size [chunked] raises nothing and the chunks it
    yields, joined in order, give back the sequence. *)
Theorem chunked_join {A} (lst : list A) (n : Z) :
  0 < n ->
  exists chunks, chunked lst n = Ok chunks /\ mjoin chunks = lst.
Proof.
  intros Hn. eexists. split; [by apply chunked_pieces|].
  rewrite concat_pieces. apply take_ge.
  pose proof (Z.mul_succ_div_gt (Z.of_nat (length lst) + n - 1) n Hn) as Hdiv.
  assert (0 <= (Z.of_nat (length lst) + n - 1) / n) by (apply Z.div_pos; lia).
  nia.
Qed.

(** X14: for a positive chunk size [n], [chunked] yields ceil(len / n)
    chunks; none is empty or longer than [n], and every chunk but the last
    has exactly [n] elements. *)
Theorem chunked_sizes {A} (lst : list A) (n : Z) (chunks : list (list A)) :
  0 < n ->
  chunked lst n = Ok chunks ->
  Z.of_nat (length chunks) = (Z.of_nat (length lst) + n - 1) / n
  /\ forall (i : nat) (chunk : list A),
       chunks !! i = Some chunk ->
       0 < Z.of_nat (length chunk) <= n
       /\ (S i < length chunks -> Z.of_nat (length chunk) = n)%nat.
Proof.
  intros Hn. rewrite chunked_pieces by done. intros [= <-].
  pose proof (Z.mul_div_le (Z.of_nat (length lst) + n - 1) n Hn) as Hle.
  assert (0 <= (Z.of_nat (length lst) + n - 1) / n) as Hc by (apply Z.div_pos; lia).
  rewrite length_fmap, length_seq. split; [lia|].
  intros i chunk Hi. apply list_lookup_fmap_Some in Hi as (k & -> & Hk).
  apply lookup_seq in Hk as [-> Hk]. simpl in *.
  rewrite length_take, length_drop. split; [nia|]. intros Hlast. nia.
Qed.

(** X15: a chunk size of zero makes [chunked] raise [ValueError] (from
    [range]); a negative chunk size yields no chunk at all, silently; the
    empty sequence yields no chunk for any non-zero size. *)
Theorem chunked_edges {A} (lst : list A) (n : Z) :
  chunked lst 0 = Raise ValueError
  /\ (n < 0 -> chunked lst n = Ok [])
  /\ (n <> 0 -> chunked (@nil A) n = Ok []).
Proof.
  split; [reflexivity|]. split.
  - intros Hn. unfold chunked, range_from_0.
    rewrite !bool_decide_eq_false_2 by lia. reflexivity.
  - intros Hn. unfold chunked, range_from_0.
    rewrite bool_decide_eq_false_2 by done.
    cbn [length Z.of_nat]. repeat case_bool_decide; try lia; reflexivity.
Qed.

Lemma c_string_cons c data : c_string (c :: data) = escape c ++ c_string data.
Proof. reflexivity. Qed.

Lemma c_string_length data : length (c_string data) = (4 * length data)%nat.
Proof.
  induction data as [|c data IH]; [done|].
  rewrite c_string_cons, length_app, IH. simpl. lia.
Qed.

Lemma c_string_drop (m : nat) data :
  drop (4 * m) (c_string data) = c_string (drop m data).
Proof.
  revert data. induction m as [|m IH]; intros data; [done|].
  destruct data as [|c data]; [done|].
  replace (4 * S m)%nat with (4 + 4 * m)%nat by lia.
  rewrite c_string_cons. simpl. apply IH.
Qed.

Lemma c_string_take (m : nat) data :
  take (4 * m) (c_string data) = c_string (take m data).
Proof.
  revert data. induction m as [|m IH]; intros data; [done|].
  destruct data as [|c data]; [done|].
  replace (4 * S m)%nat with (4 + 4 * m)%nat by lia.
  rewrite c_string_cons. simpl. rewrite c_string_cons. simpl.
  do 4 f_equal. apply IH.
Qed.

(** X16: the escape written for a byte of the table has four characters,
    a backslash, an x and two lowercase hexadecimal digits, and reading the
    two digits back gives the byte. *)
Theorem unescape_escape (c : Byte.byte) :
  length (escape c) = 4%nat /\ unescape (escape c) = Some (Byte.to_N c).
Proof. split; [reflexivity|]. destruct c; vm_compute; reflexivity. Qed.

(** X17: cutting the escaped string into chunks of 256 characters cuts
    between escapes: the chunks are the escaped forms of the chunks of 64
    bytes of the data, so no escape is split over two output lines. *)
Theorem c_string_chunks (data : list Byte.byte) :
  exists chunks,
    chunked data 64 = Ok chunks
    /\ chunked (c_string data) 256 = Ok (c_string <$> chunks).
Proof.
  eexists. split; [by apply chunked_pieces|].
  rewrite chunked_pieces by done. f_equal.
  rewrite c_string_length, <- list_fmap_compose.
  assert ((Z.of_nat (4 * length data) + 256 - 1) / 256
          = (Z.of_nat (length data) + 64 - 1) / 64) as ->.
  { symmetry. apply Z.div_unique with
      (r := 4 * ((Z.of_nat (length data) + 64 - 1) mod 64) + 3).
    - pose proof (Z.mod_pos_bound (Z.of_nat (length data) + 64 - 1) 64). lia.
    - pose proof (Z.div_mod (Z.of_nat (length data) + 64 - 1) 64). lia. }
  apply list_fmap_ext. intros _ k _. simpl.
  change (Z.to_nat 256) with (4 * 64)%nat. change (Z.to_nat 64) with 64%nat.
  replace (k * (4 * 64))%nat with (4 * (k * 64))%nat by lia.
  by rewrite c_string_drop, c_string_take.
Qed.

(** ** Classified values *)

Lemma build_trie_value_macros cb w v :
  build_trie_value cb w = Ok v ->
  INTO_CLUSTER_BREAK v = value cb /\ INTO_CHARACTER_WIDTH v = value w.
Proof. destruct cb, w; intros [= <-]; split; reflexivity. Qed.

Lemma ClusterBreak_value_inj (cb cb' : ClusterBreak) : value cb = value cb' -> cb = cb'.
Proof. destruct cb, cb'; intros H; first [reflexivity | discriminate H]. Qed.

Lemma CharacterWidth_value_inj (w w' : CharacterWidth) : value w = value w' -> w = w'.
Proof. destruct w, w'; intros H; first [reflexivity | discriminate H]. Qed.

(** X1: packing loses nothing: two pairs of cluster break and width that
    pack to the same result are the same pair. *)
Theorem build_trie_value_injective cb w cb' w' :
  build_trie_value cb w = build_trie_value cb' w' -> cb = cb' /\ w = w'.
Proof.
  intros Heq. destruct (build_trie_value_byte cb w) as (v & Hv & _).
  pose proof Hv as Hv'. rewrite Heq in Hv'.
  apply build_trie_value_macros in Hv as [Hcb Hw].
  apply build_trie_value_macros in Hv' as [Hcb' Hw'].
  split; [apply ClusterBreak_value_inj|apply CharacterWidth_value_inj]; congruence.
Qed.

Lemma cluster_break_of_gcb_base (char_gcb : pystr) (cb : ClusterBreak) :
  cluster_break_of_gcb char_gcb = Ok cb ->
  cb <> CONJUNCT_LINKER /\ cb <> EXTENDED_PICTOGRAPHIC.
Proof.
  unfold cluster_break_of_gcb.
  repeat (case_match; [intros [= <-]; split; discriminate|]). discriminate.
Qed.

Lemma derive_cluster_break_overrides (p : properties) (cb : ClusterBreak) :
  derive_cluster_break p = Ok cb ->
  (cb = EXTENDED_PICTOGRAPHIC <-> ExtPict p = Some "Y"%string)
  /\ (cb = CONJUNCT_LINKER <-> InCB p = Some "Linker"%string).
Proof.
  unfold derive_cluster_break.
  intros (cb0 & [H11 H12]%cluster_break_of_gcb_base & (cb1 & H1 & H2)%bind_Ok)%bind_Ok.
  rewrite extpict_override_cases in H1. rewrite incb_override_cases in H2.
  repeat case_decide; simplify_eq; split; split; intros; congruence.
Qed.

Lemma width_of_ea_nonzero (char_ea : pystr) (w : CharacterWidth) :
  width_of_ea char_ea = Ok w -> w <> ZeroWidth.
Proof.
  unfold width_of_ea. repeat (case_match; [by intros [= <-]|]). discriminate.
Qed.

(** X2: in the value of a classified character, the cluster break is
    ExtendedPictographic exactly when the extended-pictographic flag is "Y",
    it is ConjunctLinker exactly when the indic-conjunct-break code is
    "Linker", and the width is ZeroWidth exactly when the general category
    starts with "M". *)
Theorem classify_fields (p : properties) (v : Z) :
  classify p = Ok v ->
  (INTO_CLUSTER_BREAK v = value EXTENDED_PICTOGRAPHIC <-> ExtPict p = Some "Y"%string)
  /\ (INTO_CLUSTER_BREAK v = value CONJUNCT_LINKER <-> InCB p = Some "Linker"%string)
  /\ (INTO_CHARACTER_WIDTH v = value ZeroWidth <->
      exists char_gc, gc p = Some char_gc /\ starts_with_M char_gc).
Proof.
  rewrite classify_steps.
  intros (cb & Hcb & (w & Hw & [-> ->]%build_trie_value_macros)%bind_Ok)%bind_Ok.
  apply derive_cluster_break_overrides in Hcb as [Hext Hlink].
  split; [|split].
  - rewrite <- Hext. split; [apply ClusterBreak_value_inj|by intros ->].
  - rewrite <- Hlink. split; [apply ClusterBreak_value_inj|by intros ->].
  - destruct (gc p) as [char_gc|] eqn:Hgc;
      [|unfold width_of in Hw; rewrite Hgc in Hw; discriminate Hw].
    rewrite (width_of_cases p char_gc Hgc) in Hw. split.
    + intros ->%CharacterWidth_value_inj. exists char_gc. split; [done|].
      repeat case_decide; simplify_eq; [done|]. by apply width_of_ea_nonzero in Hw.
    + intros (g & [= <-] & HM). rewrite decide_True in Hw by done. by simplify_eq.
Qed.

(** X3: a character that has both the extended-pictographic flag "Y" and
    the indic-conjunct-break code "Linker" is never classified: the
    classification raises, with an assertion error when its GCB code is in
    the table. *)
Theorem extpict_and_linker_rejected (p : properties) :
  ExtPict p = Some "Y"%string -> InCB p = Some "Linker"%string ->
  raises (classify p)
  /\ (returns (cluster_break_of_gcb (GCB p)) -> classify p = Raise AssertionError).
Proof.
  intros HY HL.
  assert (returns (cluster_break_of_gcb (GCB p)) -> classify p = Raise AssertionError) as H.
  { intros [cb Hcb]. apply classify_cluster_break_raises.
    unfold derive_cluster_break. rewrite Hcb. simpl.
    rewrite extpict_override_cases, decide_True by done.
    case_decide; [|done]. simpl.
    by rewrite incb_override_cases, decide_True, decide_False. }
  split; [|exact H].
  destruct (cluster_break_of_gcb (GCB p)) as [cb|e] eqn:Hcb.
  - rewrite H; by eexists.
  - exists e. apply classify_cluster_break_raises.
    unfold derive_cluster_break. by rewrite Hcb.
Qed.

(** X4: the effective general category is missing exactly when the group
    has none and the character has none or an empty one; the classification
    then never returns a value, and raises [AttributeError] once the cluster
    break has been derived. *)
Theorem missing_general_category (char group : properties) :
  (gc (inherit char group) = None <->
   (gc char = None \/ gc char = Some ""%string) /\ gc group = None)
  /\ (gc (inherit char group) = None ->
      raises (classify (inherit char group))
      /\ (returns (derive_cluster_break (inherit char group)) ->
          classify (inherit char group) = Raise AttributeError)).
Proof.
  split.
  - simpl. unfold py_or. destruct (gc char) as [[|a s]|]; split.
    + intros ->. split; [by right|done].
    + by intros [_ ->].
    + discriminate.
    + intros [[H|H] _]; discriminate.
    + intros ->. split; [by left|done].
    + by intros [_ ->].
  - intros Hgc. set (p := inherit char group) in *.
    assert (returns (derive_cluster_break p) -> classify p = Raise AttributeError) as H.
    { intros [cb Hcb]. rewrite classify_steps, Hcb. simpl.
      unfold width_of, derive_width. by rewrite Hgc. }
    split; [|exact H].
    destruct (derive_cluster_break p) as [cb|e] eqn:Hcb.
    + rewrite H; by eexists.
    + exists e. by apply classify_cluster_break_raises.
Qed.

(** ** Records and the calls they lead to *)

Lemma process_char_record_call iv group t char :
  process_char iv group t char =
    call ← record_call iv group char;
    match call with
    | None => Ok t
    | Some s => submit t s
    end.
Proof.
  unfold process_char, record_call, store.
  destruct (classify (inherit (char_props char) group)) as [v|e]; [simpl|done].
  case_bool_decide; [done|].
  destruct (cp char) as [| |n]; simpl; [|done..].
  destruct (first_cp char) as [| |a]; simpl; [done..|].
  by destruct (last_cp char) as [| |b].
Qed.

Lemma record_call_Some iv group char s :
  record_call iv group char = Ok (Some s) ->
  exists v,
    classify (inherit (char_props char) group) = Ok v
    /\ v <> iv /\ sub_value s = v
    /\ forall c, contains c (as_uint32 s) <-> char_covers char c.
Proof.
  unfold record_call. intros (v & Hv & Hcall)%bind_Ok.
  exists v. split; [done|]. case_bool_decide as Hne; [done|]. split; [done|].
  destruct char as [p [| |n] [| |a] [| |b]]; simpl in Hcall; simplify_eq;
    (split; [done|]); intros c; unfold contains, char_covers; simpl; lia.
Qed.

Lemma record_call_nondefault iv group char call v :
  record_call iv group char = Ok call ->
  classify (inherit (char_props char) group) = Ok v -> v <> iv ->
  exists s, call = Some s.
Proof.
  unfold record_call. intros Hcall Hv Hne. rewrite Hv in Hcall. simpl in Hcall.
  rewrite bool_decide_eq_false_2 in Hcall by done.
  destruct (cp char) as [| |n]; simpl in Hcall; [|done|by simplify_eq; eexists].
  destruct (first_cp char) as [| |a]; simpl in Hcall; [done..|].
  destruct (last_cp char) as [| |b]; simpl in Hcall; [done..|].
  simplify_eq. by eexists.
Qed.

Lemma chars_calls_run iv group l t t' :
  for_each (process_char iv group) t l = Ok t' ->
  exists R, chars_calls iv group l = Ok R /\ for_each submit t R = Ok t'.
Proof.
  revert t. induction l as [|char l IH]; intros t Hrun; simpl in *.
  - exists []. by simplify_eq.
  - apply bind_Ok in Hrun as (t1 & H1 & Hrest).
    rewrite process_char_record_call in H1.
    apply bind_Ok in H1 as (call & Hcall & H1).
    destruct (IH _ Hrest) as (R & HR & Hsub).
    exists (option_list call ++ R). rewrite Hcall, HR. split; [done|].
    rewrite for_each_app. destruct call as [s|]; simpl.
    + by rewrite H1.
    + by simplify_eq.
Qed.

Lemma calls_of_run iv root t t' :
  for_each (process_group iv) t root = Ok t' ->
  exists R, calls_of iv root = Ok R /\ for_each submit t R = Ok t'.
Proof.
  revert t. induction root as [|group root IH]; intros t Hrun; simpl in *.
  - exists []. by simplify_eq.
  - apply bind_Ok in Hrun as (t1 & H1 & Hrest).
    apply chars_calls_run in H1 as (R1 & HR1 & Hsub1).
    destruct (IH _ Hrest) as (R & HR & Hsub).
    exists (R1 ++ R). rewrite HR1, HR. split; [done|].
    rewrite for_each_app, Hsub1. done.
Qed.

Lemma chars_calls_elem iv group l R :
  chars_calls iv group l = Ok R ->
  (forall char, char ∈ l ->
     exists call, record_call iv group char = Ok call
                  /\ forall s, call = Some s -> s ∈ R)
  /\ (forall s, s ∈ R ->
        exists char, char ∈ l /\ record_call iv group char = Ok (Some s)).
Proof.
  revert R. induction l as [|char l IH]; intros R HR; simpl in HR.
  - simplify_eq. split; [by intros ? ?%elem_of_nil|by intros ? ?%elem_of_nil].
  - apply bind_Ok in HR as (call & Hcall & (R' & HR' & [= <-])%bind_Ok).
    destruct (IH _ HR') as [IH1 IH2]. split.
    + intros char' [->|Hin]%elem_of_cons.
      * exists call. split; [done|]. intros s ->. apply elem_of_app. left.
        apply list_elem_of_here.
      * destruct (IH1 _ Hin) as (call' & Hcall' & Hs). exists call'.
        split; [done|]. intros s Hc. apply elem_of_app. right. by apply Hs.
    + intros s [Hin|Hin]%elem_of_app.
      * destruct call as [s'|]; [|by apply elem_of_nil in Hin].
        apply list_elem_of_singleton in Hin as ->. exists char.
        split; [apply list_elem_of_here|done].
      * destruct (IH2 _ Hin) as (char' & Hin' & Hcall'). exists char'.
        split; [by apply list_elem_of_further|done].
Qed.

Lemma calls_of_elem iv root R :
  calls_of iv root = Ok R ->
  (forall group char, group ∈ root -> char ∈ chars group ->
     exists call, record_call iv (group_props group) char = Ok call
                  /\ forall s, call = Some s -> s ∈ R)
  /\ (forall s, s ∈ R ->
        exists group char,
          group ∈ root /\ char ∈ chars group
          /\ record_call iv (group_props group) char = Ok (Some s)).
Proof.
  revert R. induction root as [|group root IH]; intros R HR; simpl in HR.
  - simplify_eq. split; [by intros ? ? ?%elem_of_nil|by intros ? ?%elem_of_nil].
  - apply bind_Ok in HR as (R1 & HR1 & (R' & HR' & [= <-])%bind_Ok).
    destruct (IH _ HR') as [IH1 IH2].
    destruct (chars_calls_elem _ _ _ _ HR1) as [H1 H2]. split.
    + intros group' char [->|Hin]%elem_of_cons Hchar.
      * destruct (H1 _ Hchar) as (call & Hcall & Hs). exists call.
        split; [done|]. intros s Hc. apply elem_of_app. left. by apply Hs.
      * destruct (IH1 _ _ Hin Hchar) as (call & Hcall & Hs). exists call.
        split; [done|]. intros s Hc. apply elem_of_app. right. by apply Hs.
    + intros s [Hin|Hin]%elem_of_app.
      * destruct (H2 _ Hin) as (char & Hchar & Hcall). exists group, char.
        split; [apply list_elem_of_here|done].
      * destruct (IH2 _ Hin) as (group' & char & Hg & Hchar & Hcall).
        exists group', char. split; [by apply list_elem_of_further|done].
Qed.

Lemma manual_overrides_calls (t : icu.UMutableCPTrie) :
  manual_overrides t = for_each submit t override_calls.
Proof.
  rewrite manual_overrides_Ok. unfold override_calls. cbn [for_each submit].
  rewrite setRange_small by (unfold icu.MAX_UNICODE; lia). cbn [mbind result_bind].
  rewrite setRange_small by (unfold icu.MAX_UNICODE; lia). cbn [mbind result_bind].
  rewrite setRange_small by (unfold icu.MAX_UNICODE; lia). reflexivity.
Qed.

Lemma sub_value_as_uint32 (s : submission) :
  sub_value (as_uint32 s) = c_uint32 (sub_value s).
Proof. by destruct s. Qed.

Lemma calls_of_values iv root R s :
  calls_of iv root = Ok R -> s ∈ R -> 0 <= sub_value s < 256.
Proof.
  intros HR Hs. apply calls_of_elem in HR as [_ HR].
  destruct (HR _ Hs) as (group & char & _ & _ & (v & Hv & _ & -> & _)%record_call_Some).
  by apply classify_packed, is_packed_byte in Hv.
Qed.

(** The table [main] builds is the one its calls, followed by the override
    calls, leave: the last call whose range contains a codepoint decides. *)
Lemma main_calls (root : list group_element) (trie : icu.UCPTrie) :
  main root = Ok trie ->
  exists R,
    calls_of 64 root = Ok R
    /\ forall c, 0 <= c <= 0x10FFFF ->
         icu.ucptrie_get trie c =
           default 64 (last_write (as_uint32 <$> (R ++ override_calls)) c).
Proof.
  intros (m & m' & Hm & Hm' & Hget)%main_Ok.
  apply calls_of_run in Hm as (R & HR & Hm). exists R. split; [done|].
  intros c Hc. rewrite manual_overrides_calls in Hm'.
  assert (for_each submit fresh_trie (R ++ override_calls) = Ok m') as Hall.
  { by rewrite for_each_app, Hm. }
  apply for_each_submit_data in Hall as (Hi & _ & Hd).
  rewrite Hget, umutablecptrie_get_cell, bool_decide_eq_true_2 by done.
  unfold cell. rewrite Hd, Hi. simpl. rewrite lookup_empty.
  destruct (last_write _ c) as [v|] eqn:Hv; simpl; [|done].
  apply land_byte. unfold last_write in Hv.
  destruct (last _) as [s'|] eqn:Hlast; [|done]. simpl in Hv. simplify_eq.
  apply last_Some_elem_of, list_elem_of_filter in Hlast as [_ Hin].
  apply list_elem_of_fmap in Hin as (s & -> & Hin).
  rewrite sub_value_as_uint32.
  assert (0 <= sub_value s < 256) as Hs.
  { apply elem_of_app in Hin as [Hin|Hin]; [by eapply calls_of_values|].
    unfold override_calls in Hin.
    repeat (apply elem_of_cons in Hin as [->|Hin]; [simpl; lia|]).
    by apply elem_of_nil in Hin. }
  rewrite c_uint32_small; lia.
Qed.

(** X8: when [main] returns, every record gave a call or was skipped, the
    calls are exactly those of the records with a non-default value, and the
    built table answers, for every codepoint of [0, 0x10FFFF], the value of
    the last call (the three override calls coming last) whose range
    contains it, or 64 when no call does. *)
Theorem main_last_call_wins (root : list group_element) (trie : icu.UCPTrie) :
  main root = Ok trie ->
  exists R,
    calls_of 64 root = Ok R
    /\ (forall s, s ∈ R <->
         exists group char,
           group ∈ root /\ char ∈ chars group
           /\ record_call 64 (group_props group) char = Ok (Some s))
    /\ forall c, 0 <= c <= 0x10FFFF ->
         icu.ucptrie_get trie c =
           default 64 (last_write (as_uint32 <$> (R ++ override_calls)) c).
Proof.
  intros (R & HR & Hget)%main_calls. exists R. split; [done|]. split; [|done].
  destruct (calls_of_elem _ _ _ HR) as [Hrec Hcall]. intros s. split; [apply Hcall|].
  intros (group & char & Hg & Hch & Hs).
  destruct (Hrec _ _ Hg Hch) as (call & Hcall' & Hin). apply Hin. congruence.
Qed.

(** X9: when [main] returns, a codepoint outside the override ranges that
    the repertoire lists, and whose records all classify to [v], answers [v]
    in the built table (also when [v] is the default and the records were
    skipped). *)
Theorem table_answers_record (root : list group_element) (trie : icu.UCPTrie) (c v : Z) :
  main root = Ok trie ->
  0 <= c <= 0x10FFFF -> ~ overridden c ->
  listed root c -> classified_as root c v ->
  icu.ucptrie_get trie c = v.
Proof.
  intros (R & HR & Hget)%main_calls Hc Hov Hlisted Hclass.
  rewrite (Hget c Hc). clear Hget.
  pose proof (calls_of_elem _ _ _ HR) as [Hrec Hcall].
  unfold last_write. rewrite fmap_app, filter_app.
  assert (filter (contains c) (as_uint32 <$> override_calls) = []) as ->.
  { unfold override_calls, overridden, contains in *. rewrite !fmap_cons.
    rewrite !filter_cons. repeat case_decide; simpl in *; try done;
      rewrite ?c_uint32_small in * by lia; lia. }
  rewrite app_nil_r.
  assert (forall s', s' ∈ filter (contains c) (as_uint32 <$> R) ->
          sub_value s' = v /\ v <> 64) as Hvalue.
  { intros s' [Hcont Hin]%list_elem_of_filter.
    apply list_elem_of_fmap in Hin as (s & -> & Hin).
    destruct (Hcall _ Hin) as (group & char & Hg & Hch & Hs).
    apply record_call_Some in Hs as (v0 & Hv0 & Hne & Hval & Hcov).
    apply Hcov in Hcont. rewrite (Hclass _ _ Hg Hch Hcont) in Hv0. simplify_eq.
    split; [|done]. rewrite sub_value_as_uint32. apply c_uint32_small.
    eapply calls_of_values in Hin; [|done]. lia. }
  destruct (last (filter (contains c) (as_uint32 <$> R))) as [s'|] eqn:Hlast; simpl.
  - apply last_Some_elem_of in Hlast. by apply Hvalue.
  - apply last_None in Hlast.
    destruct (decide (v = 64)) as [->|Hne]; [done|]. exfalso.
    destruct Hlisted as (group & char & Hg & Hch & Hcov).
    destruct (Hrec _ _ Hg Hch) as (call & Hrc & Hin).
    destruct (record_call_nondefault _ _ _ _ _ Hrc (Hclass _ _ Hg Hch Hcov) Hne)
      as [s ->].
    pose proof Hrc as (_ & _ & _ & _ & Hcont)%record_call_Some.
    assert (as_uint32 s ∈ filter (contains c) (as_uint32 <$> R)) as Hs.
    { apply list_elem_of_filter. split; [by apply Hcont|].
      apply list_elem_of_fmap. exists s. split; [done|]. by apply Hin. }
    rewrite Hlast in Hs. by apply elem_of_nil in Hs.
Qed.

(** ** Failures of a record *)



(** ** The wrappers *)

Lemma c_uint32_wrap (x k : Z) : c_uint32 (x + k * 2 ^ 32) = c_uint32 x.
Proof. unfold c_uint32. apply Z_mod_plus_full. Qed.

(** X10: the wrappers pass their integer arguments as [c_uint32], so
    arguments that differ by a multiple of 2^32 are the same call; a
    codepoint argument beyond 32 bits is not refused but written to the
    codepoint of its low 32 bits. *)
Theorem arguments_wrap_at_32_bits (t : icu.UMutableCPTrie) (a b v ka kb kv : Z) :
  umutablecptrie_set t (a + ka * 2 ^ 32) (v + kv * 2 ^ 32) = umutablecptrie_set t a v
  /\ umutablecptrie_setRange t (a + ka * 2 ^ 32) (b + kb * 2 ^ 32) (v + kv * 2 ^ 32)
     = umutablecptrie_setRange t a b v
  /\ (0 <= a <= 0x10FFFF -> 0 <= v < 2 ^ 32 ->
      exists t', umutablecptrie_set t (a + ka * 2 ^ 32) v = Ok t'
                 /\ icu.umutablecptrie_get t' a = v).
Proof.
  split; [|split].
  - unfold umutablecptrie_set. by rewrite !c_uint32_wrap.
  - unfold umutablecptrie_setRange. by rewrite !c_uint32_wrap.
  - intros Ha Hv. eexists. split.
    + apply umutablecptrie_set_Ok. rewrite c_uint32_wrap.
      rewrite c_uint32_small by lia. unfold icu.MAX_UNICODE. split; [lia|done].
    + rewrite umutablecptrie_get_cell, bool_decide_eq_true_2
        by (unfold icu.MAX_UNICODE; lia).
      unfold cell. cbn [icu.data icu.initialValue].
      rewrite !c_uint32_small by lia.
      by rewrite lookup_insert_eq.
Qed.

Lemma check_error_illegal_argument :
  check_error icu.U_ILLEGAL_ARGUMENT_ERROR =
    Raise (RuntimeError "failed with U_ILLEGAL_ARGUMENT_ERROR (1)").
Proof. vm_compute. reflexivity. Qed.

Lemma umutablecptrie_set_cases (t : icu.UMutableCPTrie) (c v : Z) :
  umutablecptrie_set t c v =
    if decide (c_uint32 c <= 0x10FFFF)
    then Ok (icu.MutableTrie (icu.initialValue t) (icu.errorValue t)
               (<[c_uint32 c := c_uint32 v]> (icu.data t)))
    else Raise (RuntimeError "failed with U_ILLEGAL_ARGUMENT_ERROR (1)").
Proof.
  unfold umutablecptrie_set, icu.umutablecptrie_set, icu.MAX_UNICODE.
  case_bool_decide.
  - rewrite decide_False by lia. by rewrite check_error_illegal_argument.
  - rewrite decide_True by lia. reflexivity.
Qed.

Lemma umutablecptrie_setRange_cases (t : icu.UMutableCPTrie) (a b v : Z) :
  umutablecptrie_setRange t a b v =
    if decide (c_uint32 a <= c_uint32 b <= 0x10FFFF)
    then Ok (icu.MutableTrie (icu.initialValue t) (icu.errorValue t)
               (icu.fill (c_uint32 a) (c_uint32 b) (c_uint32 v) (icu.data t)))
    else Raise (RuntimeError "failed with U_ILLEGAL_ARGUMENT_ERROR (1)").
Proof.
  unfold umutablecptrie_setRange, icu.umutablecptrie_setRange, icu.MAX_UNICODE.
  repeat case_bool_decide; cbn -[check_error icu.fill];
    first [ rewrite decide_False by lia; by rewrite check_error_illegal_argument
          | rewrite decide_True by lia; reflexivity ].
Qed.

(** X11: [umutablecptrie_set] raises, with the message "failed with
    U_ILLEGAL_ARGUMENT_ERROR (1)", exactly when its codepoint argument (as a
    32-bit value) lies beyond 0x10FFFF, and returns otherwise;
    [umutablecptrie_setRange] does so exactly when its arguments are not an
    inclusive range of codepoints. *)
Theorem native_failure_raises (t : icu.UMutableCPTrie) (c a b v : Z) :
  (umutablecptrie_set t c v =
     Raise (RuntimeError "failed with U_ILLEGAL_ARGUMENT_ERROR (1)")
   <-> 0x10FFFF < c_uint32 c)
  /\ (returns (umutablecptrie_set t c v) <-> c_uint32 c <= 0x10FFFF)
  /\ (umutablecptrie_setRange t a b v =
        Raise (RuntimeError "failed with U_ILLEGAL_ARGUMENT_ERROR (1)")
      <-> ~ c_uint32 a <= c_uint32 b <= 0x10FFFF)
  /\ (returns (umutablecptrie_setRange t a b v)
      <-> c_uint32 a <= c_uint32 b <= 0x10FFFF).
Proof.
  rewrite umutablecptrie_set_cases, umutablecptrie_setRange_cases. unfold returns.
  split; [|split; [|split]]; case_decide; split;
    first [ by intros [? [=]] | lia | by intros; eexists | done | by intros [=] ].
Qed.

(** X12: [umutablecptrie_buildImmutable] raises [ArgumentError] when given
    [UCPTRIE_TYPE_ANY] or [UCPTRIE_VALUE_BITS_ANY] (their values are tuples,
    not integers), and returns for every other layout and width. *)
Theorem buildImmutable_any_refused (m : icu.UMutableCPTrie) (typ : UCPTrieType)
    (width : UCPTrieValueWidth) :
  (typ = UCPTRIE_TYPE_ANY \/ width = UCPTRIE_VALUE_BITS_ANY ->
   umutablecptrie_buildImmutable m typ width = Raise ArgumentError)
  /\ (returns (umutablecptrie_buildImmutable m typ width) <->
      typ <> UCPTRIE_TYPE_ANY /\ width <> UCPTRIE_VALUE_BITS_ANY).
Proof.
  split.
  - intros [-> | ->]; [done|]. by destruct typ.
  - unfold returns. destruct typ, width; split;
      first [ by intros [? [=]] | by intros [? ?] | by intros; eexists ].
Qed.

(** ** Failures of [main] *)

Lemma for_each_raise {S A} (body : S -> A -> result S) (s s' : S) (l1 l2 : list A)
    (a : A) (e : exn) :
  for_each body s l1 = Ok s' -> body s' a = Raise e ->
  for_each body s (l1 ++ a :: l2) = Raise e.
Proof. intros H1 Ha. rewrite for_each_app, H1. simpl. by rewrite Ha. Qed.

Lemma main_after_loop (root : list group_element) :
  main root =
    match for_each (process_group 64) fresh_trie root with
    | Ok m =>
        m' ← manual_overrides m;
        umutablecptrie_buildImmutable m' UCPTRIE_TYPE_FAST UCPTRIE_VALUE_BITS_8
    | Raise e => Raise e
    end.
Proof. rewrite main_steps. by destruct (for_each _ _ _). Qed.



(** X6: the first record, in document order, whose processing raises
    decides the outcome of [main]: that exception is raised whatever records
    and groups follow. *)
Theorem first_failure_aborts (root1 root2 : list group_element) (group : properties)
    (l1 l2 : list char_element) (char : char_element)
    (t t' : icu.UMutableCPTrie) (e : exn) :
  for_each (process_group 64) fresh_trie root1 = Ok t ->
  for_each (process_char 64 group) t l1 = Ok t' ->
  process_char 64 group t' char = Raise e ->
  main (root1 ++ Group group (l1 ++ char :: l2) :: root2) = Raise e.
Proof.
  intros Hroot Hl Hchar. rewrite main_after_loop.
  rewrite (for_each_raise _ _ t _ _ _ e Hroot); [done|].
  unfold process_group. simpl. by apply (for_each_raise _ _ t').
Qed.

(** ** The further properties at sample inputs *)

Lemma chunked_join_witness :
  0 < 3
  /\ exists chunks, chunked [1; 2; 3; 4; 5; 6; 7] 3 = Ok chunks
                    /\ mjoin chunks = [1; 2; 3; 4; 5; 6; 7].
Proof.
  assert (0 < 3) as H by lia.
  exact (conj H (chunked_join [1; 2; 3; 4; 5; 6; 7] 3 H)).
Defined.

Lemma chunked_sizes_witness :
  0 < 3
  /\ chunked [1; 2; 3; 4; 5; 6; 7] 3 = Ok [[1; 2; 3]; [4; 5; 6]; [7]]
  /\ Z.of_nat (length [[1; 2; 3]; [4; 5; 6]; [7]]) = (Z.of_nat 7 + 3 - 1) / 3.
Proof.
  assert (0 < 3) as H by lia.
  assert (chunked [1; 2; 3; 4; 5; 6; 7] 3 = Ok [[1; 2; 3]; [4; 5; 6]; [7]]) as Hc
    by reflexivity.
  exact (conj H (conj Hc (proj1 (chunked_sizes _ 3 _ H Hc)))).
Defined.

Lemma build_trie_value_injective_witness :
  build_trie_value EXTEND Wide = build_trie_value EXTEND Wide
  /\ EXTEND = EXTEND /\ Wide = Wide.
Proof.
  exact (conj eq_refl (build_trie_value_injective EXTEND Wide EXTEND Wide eq_refl)).
Defined.

Lemma classify_fields_witness :
  classify grinning_face = Ok 140
  /\ (INTO_CLUSTER_BREAK 140 = value EXTENDED_PICTOGRAPHIC <->
      ExtPict grinning_face = Some "Y"%string).
Proof.
  exact (conj eq_refl (proj1 (classify_fields grinning_face 140 eq_refl))).
Defined.

Lemma extpict_and_linker_rejected_witness :
  ExtPict pictographic_linker = Some "Y"%string
  /\ InCB pictographic_linker = Some "Linker"%string
  /\ raises (classify pictographic_linker).
Proof.
  exact (conj eq_refl (conj eq_refl
           (proj1 (extpict_and_linker_rejected pictographic_linker eq_refl eq_refl)))).
Defined.


Lemma first_failure_aborts_witness :
  for_each (process_group 64) fresh_trie [] = Ok fresh_trie
  /\ for_each (process_char 64 no_props) fresh_trie [] = Ok fresh_trie
  /\ process_char 64 no_props fresh_trie (single no_props 0x41)
     = Raise (RuntimeError "unrecognized GCB: None")
  /\ main ([] ++ Group no_props ([] ++ single no_props 0x41 :: [single wide_props 0x42])
             :: sample_root)
     = Raise (RuntimeError "unrecognized GCB: None").
Proof.
  exact (conj eq_refl (conj eq_refl (conj eq_refl
           (first_failure_aborts [] sample_root no_props [] [single wide_props 0x42]
              (single no_props 0x41) fresh_trie fresh_trie _ eq_refl eq_refl eq_refl)))).
Defined.

Lemma main_last_call_wins_witness :
  exists trie,
    main sample_root = Ok trie
    /\ exists R,
         calls_of 64 sample_root = Ok R
         /\ (forall s, s ∈ R <->
              exists group char,
                group ∈ sample_root /\ char ∈ chars group
                /\ record_call 64 (group_props group) char = Ok (Some s))
         /\ forall c, 0 <= c <= 0x10FFFF ->
              icu.ucptrie_get trie c =
                default 64 (last_write (as_uint32 <$> (R ++ override_calls)) c).
Proof.
  destruct (main sample_root) as [trie|e] eqn:Hmain; [|by vm_compute in Hmain].
  exists trie. split; [reflexivity|]. exact (main_last_call_wins sample_root trie Hmain).
Defined.

Lemma sample_root_0301 : listed sample_root 0x301 /\ classified_as sample_root 0x301 2.
Proof.
  split.
  - eexists _, (single combining_acute 0x301).
    split; [apply list_elem_of_here|]. split; [|reflexivity].
    simpl. do 1 apply list_elem_of_further. apply list_elem_of_here.
  - intros group char Hg Hch Hcov. apply list_elem_of_singleton in Hg as ->.
    simpl in Hch.
    repeat (apply elem_of_cons in Hch as [->|Hch];
            [first [reflexivity | (exfalso; vm_compute in Hcov; intuition congruence)]|]).
    by apply elem_of_nil in Hch.
Qed.

Lemma table_answers_record_witness :
  exists trie,
    main sample_root = Ok trie
    /\ 0 <= 0x301 <= 0x10FFFF /\ ~ overridden 0x301
    /\ listed sample_root 0x301 /\ classified_as sample_root 0x301 2
    /\ icu.ucptrie_get trie 0x301 = 2.
Proof.
  destruct (main sample_root) as [trie|e] eqn:Hmain; [|by vm_compute in Hmain].
  assert (0 <= 0x301 <= 0x10FFFF) as Hc by lia.
  assert (~ overridden 0x301) as Hov by (unfold overridden; lia).
  destruct sample_root_0301 as [Hl Hcl].
  exists trie. split; [reflexivity|].
  exact (conj Hc (conj Hov (conj Hl (conj Hcl
           (table_answers_record sample_root trie 0x301 2 Hmain Hc Hov Hl Hcl))))).
Defined.
